(** * UndoRedoManager: a shallow embedding of [src/undo-redo-manager.ts]

    The manager keeps a registry of per-document undo/redo handles and two
    scope-indexed stores of [Change] records.  The per-document handles are
    external collaborators; they are abstracted by the class
    [AutomergeRepoUndoRedo].  Every method of the TypeScript class is a
    computation in a small state-and-exception monad over the manager's
    private fields, the state of the collaborators and the sequence of
    calls made on them.

    Three points of the embedding:
    - the stores [#undoStack] and [#redoStack] are plain objects, so a read
      [store[scope]] that finds no own property yields the member of
      [Object.prototype] of that name, if there is one; the own properties
      are a finite map and the inherited ones a table;
    - an array held by a store is mutated through the reference that
      [getStacks] returns; no array is ever shared between two places, so a
      reference is the place (store and key) that holds the array;
    - the sequence of calls on the collaborators is not state of the
      program: it is recorded so that the statements can say which handles
      a method calls, and in which order.  A collaborator does not call
      back into the manager. *)

From stdpp Require Import gmap strings list.

(** ** Data model *)

Definition DocumentId := string.

(** A scope is [string | symbol]. *)
Inductive ScopeKey :=
| Named (s : string)
| Symbol (n : positive).

#[global] Instance ScopeKey_eq_dec : EqDecision ScopeKey.
Proof. solve_decision. Defined.

Definition ScopeKey_to_sum (k : ScopeKey) : string + positive :=
  match k with Named s => inl s | Symbol n => inr n end.

Definition ScopeKey_of_sum (x : string + positive) : ScopeKey :=
  match x with inl s => Named s | inr n => Symbol n end.

Definition ScopeKey_of_to_sum (k : ScopeKey) : ScopeKey_of_sum (ScopeKey_to_sum k) = k :=
  match k with Named _ => eq_refl | Symbol _ => eq_refl end.

#[global] Instance ScopeKey_countable : Countable ScopeKey :=
  inj_countable' ScopeKey_to_sum ScopeKey_of_sum ScopeKey_of_to_sum.

(** Modelled from the spec: the constant [defaultScope] is imported from
    [./automerge-repo-undo-redo], which is not part of the sources at hand.
    The spec describes it as a single reserved token, distinct from every
    string. *)
Definition defaultScope : ScopeKey := Symbol 1.

(** [type Change = { description: string | undefined; ids: DocumentId[] }] *)
Record Change := mkChange {
  description : option string;
  ids : list DocumentId;
}.

(** The options object of [endTransaction] (the fields this file reads of
    [UndoRedoOptions<unknown> & { dependencies?: DocumentId[] }]). *)
Record UndoRedoOptions := mkOptions {
  opt_description : option string;
  opt_scope : option ScopeKey;
  opt_dependencies : option (list DocumentId);
}.

(** The object [{ description, ids, scope }] returned by [endTransaction],
    [undo] and [redo]. *)
Record Recorded := mkRecorded {
  r_description : option string;
  r_ids : list DocumentId;
  r_scope : ScopeKey;
}.

(** ** Exceptions *)

Inductive exn :=
| TypeError (what : string)
| HandleFailure (msg : string).

Inductive completion (A : Type) :=
| Normal (a : A)
| Throw (e : exn).
Arguments Normal {A} a.
Arguments Throw {A} e.

(** ** The external collaborator *)

(** The per-document handle class, seen from the manager: its document id,
    its constructor from a raw [DocHandle], and the four methods the manager
    calls.  [World] is the state of all documents and handles; a call may
    change it and may raise. *)
Class AutomergeRepoUndoRedo (DocHandle Handle World : Type) := {
  documentId : Handle -> DocumentId;
  newAutomergeRepoUndoRedo : DocHandle -> World -> completion Handle * World;
  h_startTransaction : Handle -> World -> completion unit * World;
  h_endTransaction : Handle -> UndoRedoOptions -> World -> completion bool * World;
  h_undo : Handle -> ScopeKey -> World -> completion unit * World;
  h_redo : Handle -> ScopeKey -> World -> completion unit * World;
}.

(** ** JavaScript containers *)

(** A [Map] iterates in insertion order; [set] on a present key keeps the
    key's position. *)
Module JsMap.
Section JsMap.
Context {V : Type}.

Fixpoint get (k : DocumentId) (m : list (DocumentId * V)) : option V :=
  match m with
  | [] => None
  | (k', v) :: rest => if decide (k' = k) then Some v else get k rest
  end.

Fixpoint set (k : DocumentId) (v : V) (m : list (DocumentId * V))
  : list (DocumentId * V) :=
  match m with
  | [] => [(k, v)]
  | (k', v') :: rest =>
      if decide (k' = k) then (k, v) :: rest else (k', v') :: set k v rest
  end.

Definition values (m : list (DocumentId * V)) : list V := map snd m.

End JsMap.
End JsMap.

(** The two stores are object literals, [{ [defaultScope]: [] }], so a
    property read that finds no own property continues in
    [Object.prototype].  These are its members (ECMAScript, with Annex B),
    each a function of the given [length], except the [__proto__] accessor,
    which yields [Object.prototype] itself.  No member has a symbol key. *)
Inductive protoval :=
| ProtoFunction (length : nat)
| ProtoObject.

Definition objectPrototype (name : string) : option protoval :=
  if decide (name = "constructor") then Some (ProtoFunction 1)
  else if decide (name = "hasOwnProperty") then Some (ProtoFunction 1)
  else if decide (name = "isPrototypeOf") then Some (ProtoFunction 1)
  else if decide (name = "propertyIsEnumerable") then Some (ProtoFunction 1)
  else if decide (name = "toLocaleString") then Some (ProtoFunction 0)
  else if decide (name = "toString") then Some (ProtoFunction 0)
  else if decide (name = "valueOf") then Some (ProtoFunction 0)
  else if decide (name = "__defineGetter__") then Some (ProtoFunction 2)
  else if decide (name = "__defineSetter__") then Some (ProtoFunction 2)
  else if decide (name = "__lookupGetter__") then Some (ProtoFunction 1)
  else if decide (name = "__lookupSetter__") then Some (ProtoFunction 1)
  else if decide (name = "__proto__") then Some ProtoObject
  else None.

Definition inherited (scope : ScopeKey) : option protoval :=
  match scope with
  | Named s => objectPrototype s
  | Symbol _ => None
  end.

Inductive side := UndoSide | RedoSide.

#[global] Instance side_eq_dec : EqDecision side.
Proof. solve_decision. Defined.

(** What a read [store[scope]] evaluates to.  An array is a reference; the
    arrays of the stores are created by [getStacks] and [endTransaction]
    only, one per store and key, and are never handed to another key, so the
    reference is named by the place that holds it. *)
Inductive jsval :=
| Undefined
| ArrayAt (sd : side) (scope : ScopeKey)
| Inherited (v : protoval).

Definition truthy (v : jsval) : bool :=
  match v with Undefined => false | _ => true end.

(** ** Manager state *)

Section Manager.
Context {DocHandle Handle World : Type}.
Context `{!AutomergeRepoUndoRedo DocHandle Handle World}.

(** The private fields [#handles], [#undoStack] and [#redoStack]; the
    stores hold their own properties. *)
Record Manager := mkManager {
  priv_handles : list (DocumentId * Handle);
  priv_undoStack : gmap ScopeKey (list Change);
  priv_redoStack : gmap ScopeKey (list Change);
}.

(** A call made on a collaborator. *)
Inductive Call :=
| CallStartTransaction (h : Handle)
| CallEndTransaction (h : Handle) (options : UndoRedoOptions)
| CallUndo (h : Handle) (scope : ScopeKey)
| CallRedo (h : Handle) (scope : ScopeKey).

(** The manager, the collaborators' state, and the calls made so far. *)
Record State := mkState {
  mgr : Manager;
  world : World;
  trace : list Call;
}.

(** [new UndoRedoManager()] *)
Definition newManager : Manager :=
  {| priv_handles := [];
     priv_undoStack := {[ defaultScope := [] ]};
     priv_redoStack := {[ defaultScope := [] ]} |}.

Definition store (sd : side) (m : Manager) : gmap ScopeKey (list Change) :=
  match sd with UndoSide => priv_undoStack m | RedoSide => priv_redoStack m end.

Definition set_store (sd : side) (f : gmap ScopeKey (list Change) -> gmap ScopeKey (list Change))
  (m : Manager) : Manager :=
  match sd with
  | UndoSide => {| priv_handles := priv_handles m;
                   priv_undoStack := f (priv_undoStack m);
                   priv_redoStack := priv_redoStack m |}
  | RedoSide => {| priv_handles := priv_handles m;
                   priv_undoStack := priv_undoStack m;
                   priv_redoStack := f (priv_redoStack m) |}
  end.

Definition with_mgr (f : Manager -> Manager) (s : State) : State :=
  {| mgr := f (mgr s); world := world s; trace := trace s |}.

(** The read [this.#undoStack[scope]] (or [#redoStack]): the own property,
    else the member of [Object.prototype], else [undefined]. *)
Definition getProp (sd : side) (m : Manager) (scope : ScopeKey) : jsval :=
  match store sd m !! scope with
  | Some _ => ArrayAt sd scope
  | None =>
      match inherited scope with
      | Some v => Inherited v
      | None => Undefined
      end
  end.

(** The assignment [this.#undoStack[scope] = []] (or [#redoStack]): it
    creates or replaces the own property.  (The methods assign to a key
    only after its read gave [undefined], or gave an array on the other
    side; in a manager made by [new UndoRedoManager()] such a key names no
    member of [Object.prototype], see [wf_invariant], so no inherited
    setter is involved.) *)
Definition setProp (sd : side) (scope : ScopeKey) (l : list Change) (m : Manager) : Manager :=
  set_store sd (<[scope := l]>) m.

(** The elements of the array a reference denotes. *)
Definition elements (sd : side) (scope : ScopeKey) (m : Manager) : list Change :=
  default [] (store sd m !! scope).

(** ** The monad of manager methods *)

Definition M (A : Type) : Type := State -> completion A * State.

Definition ret {A} (a : A) : M A := fun s => (Normal a, s).

Definition bind {A B} (c : M A) (k : A -> M B) : M B :=
  fun s =>
    match c s with
    | (Normal a, s') => k a s'
    | (Throw e, s') => (Throw e, s')
    end.

Definition throw {A} (e : exn) : M A := fun s => (Throw e, s).

Definition gets {A} (f : Manager -> A) : M A := fun s => (Normal (f (mgr s)), s).

Definition modify (f : Manager -> Manager) : M unit :=
  fun s => (Normal tt, with_mgr f s).

(** A method call on a collaborator: it is appended to the trace, and the
    collaborator's state and completion are the call's. *)
Definition invoke {A} (c : Call) (op : World -> completion A * World) : M A :=
  fun s =>
    let (r, w) := op (world s) in
    (r, {| mgr := mgr s; world := w; trace := trace s ++ [c] |}).

End Manager.

Arguments Manager : clear implicits.
Arguments State : clear implicits.
Arguments Call : clear implicits.
Arguments M : clear implicits.

Declare Scope manager_scope.
Delimit Scope manager_scope with mgr.
Notation "x <- c ;; k" := (bind c (fun x => k))
  (at level 100, c at next level, right associativity) : manager_scope.
Notation "c ;; k" := (bind c (fun _ => k))
  (at level 100, right associativity) : manager_scope.

Local Open Scope manager_scope.

(** ** Array methods on a reference *)

Section Arrays.
Context {Handle World : Type}.
#[local] Abbreviation M := (M Handle World).

Definition notAFunction {A} (method : string) : M A :=
  throw (TypeError (method +:+ " is not a function")).

Definition ofUndefined {A} (property : string) : M A :=
  throw (TypeError ("Cannot read properties of undefined, reading " +:+ property)).

(** [ref.push(c)] *)
Definition push (ref : jsval) (c : Change) : M unit :=
  match ref with
  | ArrayAt sd scope =>
      modify (fun m => setProp sd scope (elements sd scope m ++ [c]) m)
  | Inherited _ => notAFunction "push"
  | Undefined => ofUndefined "push"
  end.

(** [ref.pop()]: [None] is [undefined], the result on an empty array. *)
Definition pop (ref : jsval) : M (option Change) :=
  match ref with
  | ArrayAt sd scope =>
      l <- gets (elements sd scope);;
      match last l with
      | Some c => modify (setProp sd scope (removelast l));; ret (Some c)
      | None => ret None
      end
  | Inherited _ => notAFunction "pop"
  | Undefined => ofUndefined "pop"
  end.

(** [ref.map(f)] *)
Definition arrayMap {B} (ref : jsval) (f : Change -> B) : M (list B) :=
  match ref with
  | ArrayAt sd scope => l <- gets (elements sd scope);; ret (map f l)
  | Inherited _ => notAFunction "map"
  | Undefined => ofUndefined "map"
  end.

(** [ref.length]: [None] is [undefined]. *)
Definition arrayLength (ref : jsval) : M (option nat) :=
  match ref with
  | ArrayAt sd scope => l <- gets (elements sd scope);; ret (Some (length l))
  | Inherited (ProtoFunction n) => ret (Some n)
  | Inherited ProtoObject => ret None
  | Undefined => ofUndefined "length"
  end.

(** [n > 0], where an [undefined] operand converts to [NaN]. *)
Definition greaterThanZero (n : option nat) : bool :=
  match n with
  | Some k => bool_decide (0 < k)
  | None => false
  end.

(** [l.forEach(f)] and [l.map(f)] for a callback with effects: the first
    exception ends the iteration. *)
Fixpoint forEach {A} (l : list A) (f : A -> M unit) : M unit :=
  match l with
  | [] => ret tt
  | x :: rest => f x;; forEach rest f
  end.

Fixpoint mapM {A B} (l : list A) (f : A -> M B) : M (list B) :=
  match l with
  | [] => ret []
  | x :: rest => y <- f x;; ys <- mapM rest f;; ret (y :: ys)
  end.

(** [l.filter(Boolean)] on a list of objects or [undefined]. *)
Fixpoint filterBoolean {A} (l : list (option A)) : list A :=
  match l with
  | [] => []
  | Some x :: rest => x :: filterBoolean rest
  | None :: rest => filterBoolean rest
  end.

(** [l.filter(([, handle]) => handle)] *)
Fixpoint filterEntries {K V} (l : list (K * option V)) : list (K * V) :=
  match l with
  | [] => []
  | (k, Some v) :: rest => (k, v) :: filterEntries rest
  | (_, None) :: rest => filterEntries rest
  end.

End Arrays.

(** ** The methods of [UndoRedoManager] *)

Section Methods.
Context {DocHandle Handle World : Type}.
Context `{!AutomergeRepoUndoRedo DocHandle Handle World}.
#[local] Abbreviation M := (M Handle World).

(** The object [{ undoStack, redoStack }] that [getStacks] returns. *)
Record StackRefs := mkStackRefs {
  undoStack : jsval;
  redoStack : jsval;
}.

Definition set_handles (f : list (DocumentId * Handle) -> list (DocumentId * Handle))
  (m : Manager Handle) : Manager Handle :=
  {| priv_handles := f (priv_handles m);
     priv_undoStack := priv_undoStack m;
     priv_redoStack := priv_redoStack m |}.

(** [new AutomergeRepoUndoRedo(handle)] *)
Definition construct (d : DocHandle) : M Handle :=
  fun s =>
    let (r, w) := newAutomergeRepoUndoRedo d (world s) in
    (r, {| mgr := mgr s; world := w; trace := trace s |}).

(** [addHandle(handle)]: [inr] is the case [handle instanceof
    AutomergeRepoUndoRedo]. *)
Definition addHandle (handle : DocHandle + Handle) : M Handle :=
  undoableHandle <- match handle with
                    | inr h => ret h
                    | inl d => construct d
                    end;;
  modify (set_handles (JsMap.set (documentId undoableHandle) undoableHandle));;
  ret undoableHandle.

Definition getUndoRedoHandle (id : DocumentId) : M (option Handle) :=
  gets (fun m => JsMap.get id (priv_handles m)).

(** [dependencies ? ... : [...this.#handles.values()]] in
    [startTransaction] *)
Definition targetHandles (dependencies : option (list DocumentId))
  (hs : list (DocumentId * Handle)) : list Handle :=
  match dependencies with
  | Some deps => filterBoolean (map (fun id => JsMap.get id hs) deps)
  | None => JsMap.values hs
  end.

Definition startTransaction (dependencies : option (list DocumentId)) : M unit :=
  hs <- gets priv_handles;;
  let handles := targetHandles dependencies hs in
  forEach handles (fun handle =>
    invoke (CallStartTransaction handle) (h_startTransaction handle)).

Definition getStacks (scope : ScopeKey) : M StackRefs :=
  u <- gets (fun m => getProp UndoSide m scope);;
  (if truthy u then ret tt else modify (setProp UndoSide scope []));;
  r <- gets (fun m => getProp RedoSide m scope);;
  (if truthy r then ret tt else modify (setProp RedoSide scope []));;
  u' <- gets (fun m => getProp UndoSide m scope);;
  r' <- gets (fun m => getProp RedoSide m scope);;
  ret {| undoStack := u'; redoStack := r' |}.

(** [options.dependencies ? ... : [...this.#handles]] in [endTransaction] *)
Definition handleEntries (options : UndoRedoOptions) (hs : list (DocumentId * Handle))
  : list (DocumentId * Handle) :=
  match opt_dependencies options with
  | Some deps => filterEntries (map (fun id => (id, JsMap.get id hs)) deps)
  | None => hs
  end.

(** The callback [([id, handle]) => handle!.endTransaction(options) ? id : null] *)
Definition reportChange (options : UndoRedoOptions) (entry : DocumentId * Handle)
  : M (option DocumentId) :=
  let '(id, handle) := entry in
  changed <- invoke (CallEndTransaction handle options)
                    (h_endTransaction handle options);;
  ret (if changed : bool then Some id else None).

Definition endTransaction (options : UndoRedoOptions) : M (option Recorded) :=
  let scope := default defaultScope (opt_scope options) in
  refs <- getStacks scope;;
  hs <- gets priv_handles;;
  nullable <- mapM (handleEntries options hs) (reportChange options);;
  let results := filterBoolean nullable in
  if (length results =? 0)%nat then ret None
  else
    push (undoStack refs)
         {| description := opt_description options; ids := results |};;
    modify (setProp RedoSide scope []);;
    ret (Some {| r_description := opt_description options;
                 r_ids := results;
                 r_scope := scope |}).

(** [#transaction(fn, options)]; [fn] returns [Some] description or
    [None] for [void]. *)
Definition transaction (fn : M (option string)) (options : UndoRedoOptions)
  : M (option Recorded) :=
  startTransaction (opt_dependencies options);;
  returned <- fn;;
  let description :=
    match returned with
    | Some d => Some d
    | None => opt_description options
    end in
  endTransaction {| opt_description := description;
                    opt_scope := opt_scope options;
                    opt_dependencies := opt_dependencies options |}.

(** The loop [change.ids.forEach(...)] of [#undo] and [#redo]. *)
Definition replay (call : Handle -> ScopeKey -> Call Handle)
  (op : Handle -> ScopeKey -> World -> completion unit * World)
  (scope : ScopeKey) (change : Change) : M unit :=
  forEach (ids change) (fun id =>
    handle <- gets (fun m => JsMap.get id (priv_handles m));;
    match handle with
    | Some h => invoke (call h scope) (op h scope)
    | None => ret tt
    end).

(** [#undo(scope = defaultScope)]; the argument is [None] when omitted. *)
Definition undo (arg : option ScopeKey) : M (option Recorded) :=
  let scope := default defaultScope arg in
  refs <- getStacks scope;;
  change <- pop (undoStack refs);;
  match change with
  | None => ret None
  | Some change =>
      replay CallUndo h_undo scope change;;
      push (redoStack refs) change;;
      ret (Some {| r_description := description change;
                   r_ids := ids change;
                   r_scope := scope |})
  end.

Definition undos (arg : option ScopeKey) : M (list (option string)) :=
  let scope := default defaultScope arg in
  refs <- getStacks scope;;
  arrayMap (undoStack refs) description.

Definition redo (arg : option ScopeKey) : M (option Recorded) :=
  let scope := default defaultScope arg in
  refs <- getStacks scope;;
  change <- pop (redoStack refs);;
  match change with
  | None => ret None
  | Some change =>
      replay CallRedo h_redo scope change;;
      push (undoStack refs) change;;
      ret (Some {| r_description := description change;
                   r_ids := ids change;
                   r_scope := scope |})
  end.

Definition redos (arg : option ScopeKey) : M (list (option string)) :=
  let scope := default defaultScope arg in
  refs <- getStacks scope;;
  arrayMap (redoStack refs) description.

Definition canUndo (arg : option ScopeKey) : M bool :=
  let scope := default defaultScope arg in
  refs <- getStacks scope;;
  n <- arrayLength (undoStack refs);;
  ret (greaterThanZero n).

Definition canRedo (arg : option ScopeKey) : M bool :=
  let scope := default defaultScope arg in
  refs <- getStacks scope;;
  n <- arrayLength (redoStack refs);;
  ret (greaterThanZero n).

End Methods.

(** ** A concrete collaborator

    A handle of this collaborator carries its answers: whether its
    [endTransaction] reports an effective change, and whether its [undo]
    and [redo] raise.  The state of the collaborators counts the calls. *)
Module Sample.

Record handle := mkHandle {
  doc : DocumentId;
  changes : bool;
  raises : bool;
}.

Definition replayOn (h : handle) (w : nat) : completion unit * nat :=
  if raises h then (Throw (HandleFailure "replay failed"), S w) else (Normal tt, S w).

#[global] Instance collaborator : AutomergeRepoUndoRedo DocumentId handle nat := {|
  documentId := doc;
  newAutomergeRepoUndoRedo d w := (Normal (mkHandle d false false), w);
  h_startTransaction h w := (Normal tt, S w);
  h_endTransaction h options w := (Normal (changes h), S w);
  h_undo h scope w := replayOn h w;
  h_redo h scope w := replayOn h w;
|}.

Definition doc1 : handle := mkHandle "doc1" true false.
Definition doc2 : handle := mkHandle "doc2" false false.
Definition doc3 : handle := mkHandle "doc3" true true.

Definition registry : list (DocumentId * handle) :=
  [("doc1", doc1); ("doc2", doc2); ("doc3", doc3)].

(** A manager in which the three documents have just been registered. *)
Definition fresh : State handle nat :=
  {| mgr := {| priv_handles := registry;
               priv_undoStack := {[ defaultScope := [] ]};
               priv_redoStack := {[ defaultScope := [] ]} |};
     world := 0;
     trace := [] |}.

Definition changeA : Change := {| description := Some "a"; ids := ["doc1"] |}.
Definition changeB : Change :=
  {| description := Some "b"; ids := ["doc2"; "ghost"; "doc1"] |}.
Definition changeF : Change :=
  {| description := None; ids := ["doc1"; "doc3"; "doc2"] |}.

Definition panel : ScopeKey := Named "panel".

(** A manager with history in the default scope and in the scope
    ["panel"]; the document ["ghost"] is not registered. *)
Definition edited : State handle nat :=
  {| mgr := {| priv_handles := registry;
               priv_undoStack :=
                 <[ panel := [changeF] ]> {[ defaultScope := [changeA; changeB] ]};
               priv_redoStack :=
                 <[ panel := [changeF] ]> {[ defaultScope := [changeA] ]} |};
     world := 0;
     trace := [] |}.

(** The scenarios of the specification: both documents are edited, or
    the first one is left as it was. *)
Definition edit1 : handle := mkHandle "doc1" true false.
Definition edit2 : handle := mkHandle "doc2" true false.
Definition idle1 : handle := mkHandle "doc1" false false.

Definition start : State handle nat :=
  {| mgr := newManager; world := 0; trace := [] |}.

Definition describedAs (d : string) : UndoRedoOptions :=
  {| opt_description := Some d; opt_scope := None; opt_dependencies := None |}.

Definition scenario1 : M handle nat (option Recorded) :=
  addHandle (inr edit1);;
  addHandle (inr edit2);;
  startTransaction None;;
  endTransaction (describedAs "edit both").

Definition scenario3 : M handle nat (option Recorded) :=
  addHandle (inr idle1);;
  startTransaction (Some ["doc1"]);;
  endTransaction {| opt_description := None;
                    opt_scope := Some (Named "panelA");
                    opt_dependencies := None |}.

Definition scenario4 : M handle nat (option Recorded) :=
  addHandle (inr edit1);;
  addHandle (inr edit2);;
  startTransaction None;;
  endTransaction (describedAs "a");;
  startTransaction None;;
  endTransaction (describedAs "b").

End Sample.

(** ** A collaborator whose answers depend on its state

    The handles are those of [Sample], used here for their document only.
    A handle reports an effective change when its document is listed as
    [dirty], and ending its transaction clears the listing; every method of
    a handle raises while its document is listed as [offline]; [undo] and
    [redo] append the document to [replayed]. *)
Module Stateful.

Record docs := mkDocs {
  dirty : list DocumentId;
  offline : list DocumentId;
  replayed : list DocumentId;
}.

Definition online {A} (h : Sample.handle) (w : docs) (r : completion A * docs)
  : completion A * docs :=
  if bool_decide (Sample.doc h ∈ offline w)
  then (Throw (HandleFailure "offline"), w)
  else r.

Definition ended (h : Sample.handle) (w : docs) : docs :=
  {| dirty := filter (fun d => d <> Sample.doc h) (dirty w);
     offline := offline w;
     replayed := replayed w |}.

Definition replayedOn (h : Sample.handle) (w : docs) : docs :=
  {| dirty := dirty w;
     offline := offline w;
     replayed := replayed w ++ [Sample.doc h] |}.

#[global] Instance collaborator : AutomergeRepoUndoRedo DocumentId Sample.handle docs := {|
  documentId := Sample.doc;
  newAutomergeRepoUndoRedo d w := (Normal (Sample.mkHandle d false false), w);
  h_startTransaction h w := online h w (Normal tt, w);
  h_endTransaction h options w :=
    online h w (Normal (bool_decide (Sample.doc h ∈ dirty w)), ended h w);
  h_undo h scope w := online h w (Normal tt, replayedOn h w);
  h_redo h scope w := online h w (Normal tt, replayedOn h w);
|}.

(** Nothing edited, nothing offline. *)
Definition clean : docs := {| dirty := []; offline := []; replayed := [] |}.

(** The first and third documents edited, nothing offline. *)
Definition busy : docs := {| dirty := ["doc3"; "doc1"]; offline := []; replayed := [] |}.

(** The third document offline. *)
Definition broken : docs :=
  {| dirty := ["doc1"; "doc2"]; offline := ["doc3"]; replayed := [] |}.

(** The manager of [Sample.edited], with these collaborators in state [w]. *)
Definition edited (w : docs) : State Sample.handle docs :=
  {| mgr := mgr Sample.edited; world := w; trace := [] |}.

End Stateful.

(** ** Vocabulary of the statements *)

Section Vocabulary.
Context {DocHandle Handle World : Type}.
Context `{!AutomergeRepoUndoRedo DocHandle Handle World}.
#[local] Abbreviation M := (M Handle World).

(** The two guarded assignments of [getStacks]. *)
Definition materialize1 (sd : side) (scope : ScopeKey) (m : Manager Handle)
  : Manager Handle :=
  if truthy (getProp sd m scope) then m else setProp sd scope [] m.

Definition materialize (scope : ScopeKey) (m : Manager Handle) : Manager Handle :=
  materialize1 RedoSide scope (materialize1 UndoSide scope m).

(** The value [getStacks] returns for one side. *)
Definition resolve (sd : side) (m : Manager Handle) (scope : ScopeKey) : jsval :=
  match store sd m !! scope with
  | Some _ => ArrayAt sd scope
  | None =>
      match inherited scope with
      | Some v => Inherited v
      | None => ArrayAt sd scope
      end
  end.

(** The stack of a scope, as the manager's methods find it: the elements
    of the array [getStacks] resolves, empty for a scope not seen before;
    [None] when the scope's name resolves to a member of
    [Object.prototype] instead of an array. *)
Definition stackOf (sd : side) (m : Manager Handle) (scope : ScopeKey)
  : option (list Change) :=
  match resolve sd m scope with
  | ArrayAt _ _ => Some (elements sd scope m)
  | _ => None
  end.

(** No own property of a store shadows a member of [Object.prototype]. *)
Definition wf (m : Manager Handle) : Prop :=
  forall sd k, is_Some (store sd m !! k) -> inherited k = None.

(** The same, as a check on the keys of the two stores. *)
Definition wfb (m : Manager Handle) : bool :=
  forallb (fun k => bool_decide (inherited k = None))
          (map fst (map_to_list (priv_undoStack m)) ++
           map fst (map_to_list (priv_redoStack m))).

(** A collaborator's method that completes normally in every state. *)
Definition neverRaises {A} (op : World -> completion A * World) : Prop :=
  forall w, exists a w', op w = (Normal a, w').

(** The handles registered for the identifiers of a list, in the order of
    the list; identifiers that are not registered contribute nothing. *)
Definition registeredAmong (hs : list (DocumentId * Handle)) (l : list DocumentId)
  : list Handle :=
  omap (fun id => JsMap.get id hs) l.

(** The target handles of a transaction, in the words of the
    specification: with a dependencies list, the registered handles of the
    listed identifiers that are registered, in the order of the list;
    without one, all registered handles. *)
Definition targetHandleSet (dependencies : option (list DocumentId))
  (hs : list (DocumentId * Handle)) : list Handle :=
  match dependencies with
  | Some deps => registeredAmong hs deps
  | None => map snd hs
  end.

(** The queries, as one family. *)
Inductive query := QUndos | QRedos | QCanUndo | QCanRedo.

Inductive answer :=
| Descriptions (l : list (option string))
| Flag (b : bool).

Definition mapCompletion {A B} (f : A -> B) (c : completion A) : completion B :=
  match c with Normal a => Normal (f a) | Throw e => Throw e end.

Definition ask (q : query) (arg : option ScopeKey) (s : State Handle World)
  : completion answer * State Handle World :=
  match q with
  | QUndos => let (r, s') := undos arg s in (mapCompletion Descriptions r, s')
  | QRedos => let (r, s') := redos arg s in (mapCompletion Descriptions r, s')
  | QCanUndo => let (r, s') := canUndo arg s in (mapCompletion Flag r, s')
  | QCanRedo => let (r, s') := canRedo arg s in (mapCompletion Flag r, s')
  end.

Definition sideOf (q : query) : side :=
  match q with
  | QUndos | QCanUndo => UndoSide
  | QRedos | QCanRedo => RedoSide
  end.

(** The completion of a query, by what its scope resolves to. *)
Definition answerFrom (q : query) (m : Manager Handle) (scope : ScopeKey)
  : completion answer :=
  let l := elements (sideOf q) scope m in
  match q, resolve (sideOf q) m scope with
  | (QUndos | QRedos), ArrayAt _ _ => Normal (Descriptions (map description l))
  | (QUndos | QRedos), Inherited _ => Throw (TypeError "map is not a function")
  | (QUndos | QRedos), Undefined =>
      Throw (TypeError "Cannot read properties of undefined, reading map")
  | (QCanUndo | QCanRedo), ArrayAt _ _ => Normal (Flag (greaterThanZero (Some (length l))))
  | (QCanUndo | QCanRedo), Inherited (ProtoFunction n) =>
      Normal (Flag (greaterThanZero (Some n)))
  | (QCanUndo | QCanRedo), Inherited ProtoObject => Normal (Flag (greaterThanZero None))
  | (QCanUndo | QCanRedo), Undefined =>
      Throw (TypeError "Cannot read properties of undefined, reading length")
  end.

(** [#undo] and [#redo] are one body, read with the two stores exchanged. *)
Definition refOf (sd : side) (refs : StackRefs) : jsval :=
  match sd with UndoSide => undoStack refs | RedoSide => redoStack refs end.

Definition opposite (sd : side) : side :=
  match sd with UndoSide => RedoSide | RedoSide => UndoSide end.

Definition move (from : side) (call : Handle -> ScopeKey -> Call Handle)
  (op : Handle -> ScopeKey -> World -> completion unit * World)
  (arg : option ScopeKey) : M (option Recorded) :=
  let scope := default defaultScope arg in
  refs <- getStacks scope;;
  change <- pop (refOf from refs);;
  match change with
  | None => ret None
  | Some change =>
      replay call op scope change;;
      push (refOf (opposite from) refs) change;;
      ret (Some {| r_description := description change;
                   r_ids := ids change;
                   r_scope := scope |})
  end.

(** The calls [ops] made on the collaborators one after the other, from
    the state [w]: the results of the calls and the state after the last
    one, or the exception of the first call that raises and the state that
    call leaves. *)
Fixpoint runCalls {A} (ops : list (World -> completion A * World)) (w : World)
  : completion (list A) * World :=
  match ops with
  | [] => (Normal [], w)
  | op :: rest =>
      match op w with
      | (Normal a, w1) =>
          match runCalls rest w1 with
          | (Normal l, w2) => (Normal (a :: l), w2)
          | (Throw e, w2) => (Throw e, w2)
          end
      | (Throw e, w1) => (Throw e, w1)
      end
  end.

(** In the calls of [op] on the handles [l], made one after the other
    from the state [w], a call raises [e] and leaves the state [w2]: the
    calls on the handles before it complete, and it raises in the state
    they leave. *)
Definition raisesIn {A} (op : Handle -> World -> completion A * World)
  (l : list Handle) (w : World) (e : exn) (w2 : World) : Prop :=
  exists pre h post us w1,
    l = pre ++ h :: post /\
    runCalls (map op pre) w = (Normal us, w1) /\
    op h w1 = (Throw e, w2).

(** A method called [n] times in a row, as a caller would. *)
Fixpoint times {A} (n : nat) (c : M A) : M unit :=
  match n with
  | O => ret tt
  | S n' => c;; times n' c
  end.

End Vocabulary.

(** * Properties *)

Section Properties.
Context {DocHandle Handle World : Type}.
Context `{!AutomergeRepoUndoRedo DocHandle Handle World}.
#[local] Abbreviation M := (M Handle World).
Implicit Types (m : Manager Handle) (s : State Handle World).
Implicit Types (scope : ScopeKey) (sd : side) (c : Change).

Lemma undo_move arg : undo arg = move UndoSide CallUndo h_undo arg.
Proof. reflexivity. Qed.

Lemma redo_move arg : redo arg = move RedoSide CallRedo h_redo arg.
Proof. reflexivity. Qed.

(** *** [getStacks] *)

Lemma store_set_store sd sd' f m :
  store sd (set_store sd' f m) = if decide (sd = sd') then f (store sd m) else store sd m.
Proof. by destruct sd, sd'. Qed.

Lemma handles_set_store sd f m : priv_handles (set_store sd f m) = priv_handles m.
Proof. by destruct sd. Qed.

Lemma handles_materialize scope m : priv_handles (materialize scope m) = priv_handles m.
Proof.
  unfold materialize, materialize1, setProp.
  repeat case_match; rewrite ?handles_set_store; done.
Qed.

Lemma store_materialize1 sd sd' scope m :
  store sd (materialize1 sd' scope m) =
    if decide (sd = sd') then
      match getProp sd m scope with
      | Undefined => <[scope := []]> (store sd m)
      | _ => store sd m
      end
    else store sd m.
Proof.
  unfold materialize1, setProp.
  case_decide as Hsd; [subst sd'|].
  - destruct (getProp sd m scope); simpl; [|done..].
    rewrite store_set_store. by rewrite decide_True.
  - destruct (truthy _); [done|]. rewrite store_set_store. by rewrite decide_False.
Qed.

Lemma getProp_materialize1_ne sd sd' scope m k :
  sd <> sd' -> getProp sd (materialize1 sd' scope m) k = getProp sd m k.
Proof.
  intros Hne. unfold getProp. rewrite store_materialize1. by rewrite decide_False.
Qed.

Lemma store_materialize sd scope m :
  store sd (materialize scope m) =
    match getProp sd m scope with
    | Undefined => <[scope := []]> (store sd m)
    | _ => store sd m
    end.
Proof.
  unfold materialize. destruct sd.
  - rewrite store_materialize1, decide_False by done.
    rewrite store_materialize1, decide_True by done. done.
  - rewrite store_materialize1, decide_True by done.
    rewrite getProp_materialize1_ne by done.
    rewrite store_materialize1, decide_False by done. done.
Qed.

Lemma getProp_materialize sd scope m :
  getProp sd (materialize scope m) scope = resolve sd m scope.
Proof.
  unfold getProp at 1. rewrite store_materialize. unfold getProp, resolve.
  destruct (store sd m !! scope) eqn:Hown; simpl; [by rewrite Hown|].
  destruct (inherited scope) eqn:Hin; simpl; [by rewrite Hown|].
  by rewrite lookup_insert_eq.
Qed.

Lemma lookup_materialize_ne sd scope m k :
  k <> scope -> store sd (materialize scope m) !! k = store sd m !! k.
Proof.
  intros Hne. rewrite store_materialize.
  destruct (getProp sd m scope); [|done..]. by rewrite lookup_insert_ne.
Qed.

Lemma elements_materialize sd scope m k :
  elements sd k (materialize scope m) = elements sd k m.
Proof.
  unfold elements. rewrite store_materialize.
  unfold getProp. destruct (store sd m !! scope) eqn:Hown; [done|].
  destruct (inherited scope); [done|].
  destruct (decide (k = scope)) as [->|Hne].
  - by rewrite lookup_insert_eq, Hown.
  - by rewrite lookup_insert_ne.
Qed.

Lemma resolve_materialize sd scope m k :
  resolve sd (materialize scope m) k = resolve sd m k.
Proof.
  unfold resolve. rewrite store_materialize.
  unfold getProp. destruct (store sd m !! scope) eqn:Hown; [done|].
  destruct (inherited scope) eqn:Hin; [done|].
  destruct (decide (k = scope)) as [->|Hne].
  - by rewrite lookup_insert_eq, Hown, Hin.
  - by rewrite lookup_insert_ne.
Qed.

Lemma stackOf_materialize sd scope m k :
  stackOf sd (materialize scope m) k = stackOf sd m k.
Proof. unfold stackOf. by rewrite resolve_materialize, elements_materialize. Qed.

Lemma getStacks_run scope s :
  getStacks scope s =
    (Normal {| undoStack := resolve UndoSide (mgr s) scope;
               redoStack := resolve RedoSide (mgr s) scope |},
     with_mgr (materialize scope) s).
Proof.
  rewrite <- !getProp_materialize.
  destruct s as [m w t]. unfold getStacks, bind, gets, modify, ret, with_mgr; simpl.
  unfold materialize, materialize1.
  destruct (truthy (getProp UndoSide m scope)); simpl;
    destruct (truthy (getProp RedoSide _ scope)); simpl; reflexivity.
Qed.

(** *** Loops over the collaborators *)

Lemma with_mgr_id s : with_mgr (fun m => m) s = s.
Proof. by destruct s. Qed.

Lemma with_mgr_fixed (f : Manager Handle -> Manager Handle) s :
  f (mgr s) = mgr s -> with_mgr f s = s.
Proof. destruct s as [m w t]. unfold with_mgr. simpl. by intros ->. Qed.

Lemma forEach_cons {A} (x : A) (l : list A) (f : A -> M unit) s :
  forEach (x :: l) f s =
    match f x s with
    | (Normal _, s') => forEach l f s'
    | (Throw e, s') => (Throw e, s')
    end.
Proof. reflexivity. Qed.

Lemma mapM_cons {A B} (x : A) (l : list A) (f : A -> M B) s :
  mapM (x :: l) f s =
    match f x s with
    | (Normal y, s') =>
        match mapM l f s' with
        | (Normal ys, s'') => (Normal (y :: ys), s'')
        | (Throw e, s'') => (Throw e, s'')
        end
    | (Throw e, s') => (Throw e, s')
    end.
Proof. reflexivity. Qed.

Lemma forEach_frame {A} (l : list A) (f : A -> M unit) (g : Manager Handle -> Manager Handle) :
  (forall x s, f x (with_mgr g s) = let (r, s') := f x s in (r, with_mgr g s')) ->
  forall s, forEach l f (with_mgr g s) = let (r, s') := forEach l f s in (r, with_mgr g s').
Proof.
  intros Hf. induction l as [|x l IH]; intros s; simpl; [done|].
  unfold bind. rewrite Hf. destruct (f x s) as [[[]|e] s1]; [|done].
  apply IH.
Qed.

Lemma mapM_frame {A B} (l : list A) (f : A -> M B) (g : Manager Handle -> Manager Handle) :
  (forall x s, f x (with_mgr g s) = let (r, s') := f x s in (r, with_mgr g s')) ->
  forall s, mapM l f (with_mgr g s) = let (r, s') := mapM l f s in (r, with_mgr g s').
Proof.
  intros Hf. induction l as [|x l IH]; intros s; simpl; [done|].
  unfold bind. rewrite Hf. destruct (f x s) as [[y|e] s1]; [|done].
  rewrite IH. by destruct (mapM l f s1) as [[ys|e] s2].
Qed.

Lemma invoke_frame {A} (c : Call Handle) (op : World -> completion A * World) g s :
  invoke c op (with_mgr g s) = let (r, s') := invoke c op s in (r, with_mgr g s').
Proof. unfold invoke; simpl. by destruct (op (world s)). Qed.

(** The replay loop reads the registry only: a change of the stores
    commutes with it. *)
Lemma replay_frame call op scope c g :
  (forall m, priv_handles (g m) = priv_handles m) ->
  forall s, replay call op scope c (with_mgr g s) =
            let (r, s') := replay call op scope c s in (r, with_mgr g s').
Proof.
  intros Hg. apply forEach_frame. intros id s.
  unfold bind, gets; simpl. rewrite Hg.
  destruct (JsMap.get id (priv_handles (mgr s))); [apply invoke_frame|done].
Qed.

Lemma forEach_mgr {A} (l : list A) (f : A -> M unit) :
  (forall x s, mgr (f x s).2 = mgr s) ->
  forall s, mgr (forEach l f s).2 = mgr s.
Proof.
  intros Hf. induction l as [|x l IH]; intros s; simpl; [done|].
  unfold bind. specialize (Hf x s). destruct (f x s) as [[[]|e] s1]; simpl in *; [|done].
  by rewrite IH.
Qed.

Lemma mapM_mgr {A B} (l : list A) (f : A -> M B) :
  (forall x s, mgr (f x s).2 = mgr s) ->
  forall s, mgr (mapM l f s).2 = mgr s.
Proof.
  intros Hf. induction l as [|x l IH]; intros s; simpl; [done|].
  unfold bind. specialize (Hf x s). destruct (f x s) as [[y|e] s1]; simpl in *; [|done].
  specialize (IH s1). destruct (mapM l f s1) as [[ys|e] s2]; simpl in *; congruence.
Qed.

Lemma invoke_mgr {A} (c : Call Handle) (op : World -> completion A * World) s :
  mgr (invoke c op s).2 = mgr s.
Proof. unfold invoke. by destruct (op (world s)). Qed.

Lemma replay_mgr call op scope c s : mgr (replay call op scope c s).2 = mgr s.
Proof.
  apply forEach_mgr. intros id s'. unfold bind, gets; simpl.
  destruct (JsMap.get id (priv_handles (mgr s'))); [apply invoke_mgr|done].
Qed.

(** *** Array methods *)

Lemma pop_array sd scope s :
  pop (ArrayAt sd scope) s =
    match last (elements sd scope (mgr s)) with
    | Some c =>
        (Normal (Some c),
         with_mgr (setProp sd scope (removelast (elements sd scope (mgr s)))) s)
    | None => (Normal None, s)
    end.
Proof.
  unfold pop, bind, gets. by destruct (last (elements sd scope (mgr s))).
Qed.

Lemma push_array sd scope c s :
  push (ArrayAt sd scope) c s =
    (Normal tt, with_mgr (fun m => setProp sd scope (elements sd scope m ++ [c]) m) s).
Proof. reflexivity. Qed.

Lemma store_setProp sd sd' scope l m :
  store sd (setProp sd' scope l m) =
    if decide (sd = sd') then <[scope := l]> (store sd m) else store sd m.
Proof. apply store_set_store. Qed.

Lemma handles_setProp sd scope l m : priv_handles (setProp sd scope l m) = priv_handles m.
Proof. apply handles_set_store. Qed.

Lemma opposite_ne sd : opposite sd <> sd.
Proof. by destruct sd. Qed.

Lemma opposite_ne' sd : sd <> opposite sd.
Proof. by destruct sd. Qed.

Lemma elements_lookup sd scope m l :
  store sd m !! scope = Some l -> elements sd scope m = l.
Proof. unfold elements. by intros ->. Qed.

Lemma stackOf_lookup sd m scope l :
  store sd m !! scope = Some l -> stackOf sd m scope = Some l.
Proof. unfold stackOf, resolve, elements. by intros ->. Qed.

Lemma stackOf_Some sd m scope l :
  stackOf sd m scope = Some l ->
  resolve sd m scope = ArrayAt sd scope /\ elements sd scope m = l.
Proof.
  unfold stackOf, resolve.
  destruct (store sd m !! scope); [naive_solver|].
  destruct (inherited scope); naive_solver.
Qed.

(** A stack with an element is an own property; in a well-formed manager
    its scope names no member of [Object.prototype]. *)
Lemma stackOf_snoc_own sd m scope l c :
  stackOf sd m scope = Some (l ++ [c]) -> store sd m !! scope = Some (l ++ [c]).
Proof.
  unfold stackOf, resolve, elements.
  destruct (store sd m !! scope) eqn:Hown; simpl; [congruence|].
  destruct (inherited scope); [done|]. intros [=Hnil].
  by destruct l.
Qed.

Lemma wf_resolve sd m scope :
  inherited scope = None -> resolve sd m scope = ArrayAt sd scope.
Proof. unfold resolve. intros ->. by destruct (store sd m !! scope). Qed.

(** *** Moving a change between the stacks of a scope *)

Lemma refOf_resolved sd m scope :
  inherited scope = None ->
  refOf sd {| undoStack := resolve UndoSide m scope;
              redoStack := resolve RedoSide m scope |} = ArrayAt sd scope.
Proof. intros Hin. destruct sd; simpl; by apply wf_resolve. Qed.

Lemma refOf_resolve sd m scope :
  refOf sd {| undoStack := resolve UndoSide m scope;
              redoStack := resolve RedoSide m scope |} = resolve sd m scope.
Proof. by destruct sd. Qed.

Lemma move_empty from call op S s :
  stackOf from (mgr s) S = Some [] ->
  move from call op (Some S) s = (Normal None, with_mgr (materialize S) s).
Proof.
  intros [Href Hel]%stackOf_Some.
  unfold move. simpl default. unfold bind at 1. rewrite getStacks_run.
  rewrite refOf_resolve, Href. unfold bind at 1. rewrite pop_array. simpl mgr.
  by rewrite elements_materialize, Hel.
Qed.

Lemma move_raises from call op S s l C e s_r :
  wf (mgr s) ->
  stackOf from (mgr s) S = Some (l ++ [C]) ->
  replay call op S C s = (Throw e, s_r) ->
  move from call op (Some S) s =
    (Throw e, with_mgr (fun m => setProp from S l (materialize S m)) s_r)
  /\ mgr s_r = mgr s.
Proof.
  intros Hwf Hst Hrun.
  pose proof (stackOf_snoc_own _ _ _ _ _ Hst) as Hown.
  assert (Hin : inherited S = None) by (apply (Hwf from); rewrite Hown; eauto).
  split; [|by rewrite <- (replay_mgr call op S C s), Hrun].
  unfold move. simpl default. unfold bind at 1. rewrite getStacks_run.
  rewrite !refOf_resolved by done.
  unfold bind at 1. rewrite pop_array.
  replace (elements from S (mgr (with_mgr (materialize S) s))) with (l ++ [C])
    by (simpl; rewrite elements_materialize; symmetry; by apply elements_lookup).
  rewrite last_snoc, removelast_last.
  unfold bind at 1.
  rewrite (replay_frame call op S C (setProp from S l))
    by (intros; apply handles_setProp).
  rewrite (replay_frame call op S C (materialize S))
    by (intros; apply handles_materialize).
  rewrite Hrun. by destruct s_r.
Qed.

(** *** Well-formed managers *)

Lemma wf_newManager : wf (@newManager Handle).
Proof.
  intros sd k [l Hl]. destruct sd; simpl in Hl;
    apply lookup_singleton_Some in Hl as [<- _]; done.
Qed.

Lemma wfb_wf m : wfb m = true -> wf m.
Proof.
  unfold wfb. rewrite forallb_forall. intros Hall sd k [l Hl].
  eapply bool_decide_eq_true_1, Hall, in_app_iff.
  destruct sd; [left|right]; apply in_map_iff; exists (k, l);
    (split; [done|]); apply list_elem_of_In, elem_of_map_to_list; done.
Qed.

Lemma wf_setProp sd scope l m :
  wf m -> inherited scope = None -> wf (setProp sd scope l m).
Proof.
  intros Hwf Hin sd' k. rewrite store_setProp. case_decide; [|apply Hwf].
  destruct (decide (k = scope)) as [->|Hne]; [done|].
  rewrite lookup_insert_ne by done. apply Hwf.
Qed.

Lemma wf_set_handles f m : wf m -> wf (set_handles f m).
Proof. intros Hwf sd k. specialize (Hwf sd k). by destruct sd. Qed.

Lemma wf_materialize scope m : wf m -> wf (materialize scope m).
Proof.
  intros Hwf sd k. rewrite store_materialize. unfold getProp.
  destruct (store sd m !! scope) eqn:Hown; [apply Hwf|].
  destruct (inherited scope) eqn:Hin; [apply Hwf|].
  destruct (decide (k = scope)) as [->|Hne]; [done|].
  rewrite lookup_insert_ne by done. apply Hwf.
Qed.

(** In a well-formed manager a scope that names a member of
    [Object.prototype] has no stack, and [getStacks] changes nothing. *)
Lemma wf_inherited m scope v sd :
  wf m -> inherited scope = Some v ->
  store sd m !! scope = None /\ resolve sd m scope = Inherited v
  /\ materialize scope m = m.
Proof.
  intros Hwf Hin.
  assert (Hnone : forall sd', store sd' m !! scope = None).
  { intros sd'. destruct (store sd' m !! scope) eqn:Hown; [|done].
    rewrite (Hwf sd' scope) in Hin by eauto. done. }
  split; [done|]. split.
  - unfold resolve. by rewrite Hnone, Hin.
  - unfold materialize, materialize1.
    assert (Hprop : forall sd', getProp sd' m scope = Inherited v)
      by (intros sd'; unfold getProp; by rewrite Hnone, Hin).
    rewrite (Hprop UndoSide). simpl truthy. cbv iota. by rewrite (Hprop RedoSide).
Qed.

Lemma resolve_array sd m scope sd' k :
  wf m -> resolve sd m scope = ArrayAt sd' k ->
  sd' = sd /\ k = scope /\ inherited scope = None.
Proof.
  intros Hwf. unfold resolve.
  destruct (store sd m !! scope) eqn:Hown.
  - intros [= <- <-]. repeat split. apply (Hwf sd). rewrite Hown; eauto.
  - destruct (inherited scope); [done|]. by intros [= <- <-].
Qed.

Lemma resolve_not_undefined sd m scope : resolve sd m scope <> Undefined.
Proof.
  unfold resolve. destruct (store sd m !! scope); [done|].
  by destruct (inherited scope).
Qed.

(** *** The manager after a method

    Whatever the completion, a method leaves the manager in one of a few
    shapes, all of them changes at the method's own scope. *)

Lemma resolve_cases sd m scope :
  resolve sd m scope = ArrayAt sd scope \/ exists v, resolve sd m scope = Inherited v.
Proof.
  unfold resolve. destruct (store sd m !! scope); [by left|].
  destruct (inherited scope); eauto.
Qed.

Lemma move_shape from call op A s :
  let m' := mgr (move from call op (Some A) s).2 in
  priv_handles m' = priv_handles (mgr s) /\
  (m' = materialize A (mgr s)
   \/ (resolve from (mgr s) A = ArrayAt from A /\
       exists l, m' = setProp from A l (materialize A (mgr s)))
   \/ (resolve from (mgr s) A = ArrayAt from A /\
       resolve (opposite from) (mgr s) A = ArrayAt (opposite from) A /\
       exists l l', m' = setProp (opposite from) A l'
                           (setProp from A l (materialize A (mgr s))))).
Proof.
  cbv zeta. remember (move from call op (Some A) s) as res eqn:Hres.
  unfold move in Hres. simpl default in Hres.
  unfold bind at 1 in Hres. rewrite getStacks_run, !refOf_resolve in Hres.
  destruct (resolve_cases from (mgr s) A) as [Hfrom|[v Hfrom]]; rewrite Hfrom in Hres.
  2:{ subst res. simpl. rewrite handles_materialize. auto. }
  unfold bind at 1 in Hres. rewrite pop_array in Hres.
  destruct (last _) as [c|]; [|subst res; simpl; rewrite handles_materialize; auto].
  unfold bind at 1 in Hres.
  match type of Hres with context [replay call op A c ?s2] =>
    pose proof (replay_mgr call op A c s2) as Hmgr;
    destruct (replay call op A c s2) as [[[]|e] s3] end; simpl in Hmgr.
  2:{ subst res. simpl. rewrite Hmgr, handles_setProp, handles_materialize. eauto 10. }
  destruct (resolve_cases (opposite from) (mgr s) A) as [Hto|[v Hto]];
    rewrite Hto in Hres.
  2:{ subst res. simpl. rewrite Hmgr, handles_setProp, handles_materialize. eauto 10. }
  unfold bind at 1 in Hres. rewrite push_array in Hres. subst res. simpl.
  rewrite Hmgr, !handles_setProp, handles_materialize. eauto 10.
Qed.

Lemma endTransaction_shape options s :
  let A := default defaultScope (opt_scope options) in
  let m' := mgr (endTransaction options s).2 in
  priv_handles m' = priv_handles (mgr s) /\
  (m' = materialize A (mgr s)
   \/ (resolve UndoSide (mgr s) A = ArrayAt UndoSide A /\
       exists l, m' = setProp RedoSide A [] (setProp UndoSide A l (materialize A (mgr s))))).
Proof.
  cbv zeta. remember (endTransaction options s) as res eqn:Hres.
  unfold endTransaction in Hres. unfold bind at 1 in Hres.
  rewrite getStacks_run in Hres.
  unfold bind at 1, gets at 1 in Hres. simpl in Hres.
  unfold bind at 1 in Hres.
  match type of Hres with context [mapM ?l ?f ?s1] =>
    assert (Hmgr : mgr (mapM l f s1).2 = mgr s1);
    [|destruct (mapM l f s1) as [[nullable|e] s2]; simpl in Hmgr] end.
  { apply mapM_mgr. intros [id h] s'. unfold reportChange, bind.
    pose proof (invoke_mgr (CallEndTransaction h options) (h_endTransaction h options) s').
    by destruct (invoke _ _ s') as [[[]|e] s'']. }
  2:{ subst res. simpl. rewrite Hmgr, handles_materialize. auto. }
  destruct (length (filterBoolean nullable) =? 0)%nat.
  { subst res. simpl. rewrite Hmgr, handles_materialize. auto. }
  destruct (resolve_cases UndoSide (mgr s) (default defaultScope (opt_scope options)))
    as [Hu|[v Hu]]; rewrite Hu in Hres.
  2:{ subst res. simpl. rewrite Hmgr, handles_materialize. auto. }
  unfold bind at 1 in Hres. rewrite push_array in Hres. subst res. simpl.
  rewrite Hmgr. rewrite ?handles_setProp, ?handles_materialize. eauto 10.
Qed.

Lemma ask_run q arg s :
  ask q arg s =
    (answerFrom q (mgr s) (default defaultScope arg),
     with_mgr (materialize (default defaultScope arg)) s).
Proof.
  destruct q; unfold ask, undos, redos, canUndo, canRedo, answerFrom;
    unfold bind at 1; rewrite getStacks_run; simpl undoStack; simpl redoStack;
    simpl sideOf;
    match goal with |- context [resolve ?sd (mgr s) ?k] =>
      destruct (resolve_cases sd (mgr s) k) as [Hr|[[] Hr]]; rewrite Hr end;
    try done; unfold arrayMap, arrayLength, bind, gets, ret; simpl mgr;
    by rewrite !elements_materialize.
Qed.

Lemma ask_state q arg s :
  (ask q arg s).2 = with_mgr (materialize (default defaultScope arg)) s.
Proof. by rewrite ask_run. Qed.

(** *** The transaction loops *)

Lemma startTransaction_run dependencies s :
  Forall (fun h => neverRaises (h_startTransaction h))
         (targetHandles dependencies (priv_handles (mgr s))) ->
  exists w',
    startTransaction dependencies s =
      (Normal tt,
       {| mgr := mgr s; world := w';
          trace := trace s ++
            map CallStartTransaction (targetHandles dependencies (priv_handles (mgr s))) |}).
Proof.
  unfold startTransaction, bind at 1, gets at 1. destruct s as [m w t]; simpl.
  generalize (targetHandles dependencies (priv_handles m)) as l. intros l. revert w t.
  induction l as [|h l IH]; intros w t Hall.
  - exists w. simpl. by rewrite app_nil_r.
  - rewrite forEach_cons. apply Forall_cons in Hall as [Hh Hall].
    destruct (Hh w) as ([] & w1 & Hop). unfold invoke at 1; simpl. rewrite Hop.
    destruct (IH w1 (t ++ [CallStartTransaction h]) Hall) as [w' ->].
    exists w'. simpl. by rewrite <- app_assoc.
Qed.

(** When no target handle raises, [endTransaction] asks every target, in
    order, and the loop completes. *)
Lemma collect_run options entries s :
  Forall (fun e => neverRaises (h_endTransaction e.2 options)) entries ->
  exists nullable w',
    mapM entries (reportChange options) s =
      (Normal nullable,
       {| mgr := mgr s; world := w';
          trace := trace s ++ map (fun e => CallEndTransaction e.2 options) entries |}).
Proof.
  destruct s as [m w t]; simpl. revert w t.
  induction entries as [|[id h] l IH]; intros w t Hall.
  - exists [], w. simpl. by rewrite app_nil_r.
  - rewrite mapM_cons. apply Forall_cons in Hall as [Hh Hall].
    destruct (Hh w) as (b & w1 & Hop); simpl in Hop.
    unfold reportChange at 1, bind at 1, invoke at 1; simpl. rewrite Hop.
    unfold ret at 1.
    destruct (IH w1 (t ++ [CallEndTransaction h options]) Hall) as (ns & w' & ->).
    eexists _, w'. simpl. by rewrite <- app_assoc.
Qed.

(** When every target answers as [changed] says, the loop yields the
    identifiers of the entries that changed and [null] for the others. *)
Lemma collect_changed options entries (changed : Handle -> bool) s :
  Forall (fun e => forall w, exists w',
            h_endTransaction e.2 options w = (Normal (changed e.2), w')) entries ->
  exists w',
    mapM entries (reportChange options) s =
      (Normal (map (fun e => if changed e.2 then Some e.1 else None) entries),
       {| mgr := mgr s; world := w';
          trace := trace s ++ map (fun e => CallEndTransaction e.2 options) entries |}).
Proof.
  destruct s as [m w t]; simpl. revert w t.
  induction entries as [|[id h] l IH]; intros w t Hall.
  - exists w. simpl. by rewrite app_nil_r.
  - rewrite mapM_cons. apply Forall_cons in Hall as [Hh Hall].
    destruct (Hh w) as (w1 & Hop); simpl in Hop.
    unfold reportChange at 1, bind at 1, invoke at 1; simpl. rewrite Hop.
    unfold ret at 1.
    destruct (IH w1 (t ++ [CallEndTransaction h options]) Hall) as (w' & ->).
    exists w'. simpl. by rewrite <- app_assoc.
Qed.

Lemma filterBoolean_changed (entries : list (DocumentId * Handle)) (changed : Handle -> bool) :
  filterBoolean (map (fun e => if changed e.2 then Some e.1 else None) entries)
  = map fst (filter (fun e => changed e.2 = true) entries).
Proof.
  induction entries as [|[id h] l IH]; [done|]. simpl.
  rewrite filter_cons. simpl. destruct (changed h); simpl; by rewrite IH.
Qed.

(** [endTransaction], run against targets that answer as [changed] says. *)
Lemma endTransaction_run options (changed : Handle -> bool) s :
  let scope := default defaultScope (opt_scope options) in
  let entries := handleEntries options (priv_handles (mgr s)) in
  let results := map fst (filter (fun e => changed e.2 = true) entries) in
  let c := {| description := opt_description options; ids := results |} in
  Forall (fun e => forall w, exists w',
            h_endTransaction e.2 options w = (Normal (changed e.2), w')) entries ->
  exists w',
    endTransaction options s =
      (if (length results =? 0)%nat then Normal None
       else match resolve UndoSide (mgr s) scope with
            | ArrayAt _ _ =>
                Normal (Some {| r_description := opt_description options;
                                r_ids := results; r_scope := scope |})
            | _ => Throw (TypeError "push is not a function")
            end,
       {| mgr :=
            if (length results =? 0)%nat then materialize scope (mgr s)
            else match resolve UndoSide (mgr s) scope with
                 | ArrayAt _ _ =>
                     setProp RedoSide scope []
                       (setProp UndoSide scope (elements UndoSide scope (mgr s) ++ [c])
                          (materialize scope (mgr s)))
                 | _ => materialize scope (mgr s)
                 end;
          world := w';
          trace := trace s ++ map (fun e => CallEndTransaction e.2 options) entries |}).
Proof.
  intros scope entries results c Hall.
  unfold endTransaction. fold scope. unfold bind at 1. rewrite getStacks_run.
  unfold bind at 1, gets at 1. simpl mgr. rewrite handles_materialize. fold entries.
  destruct (collect_changed options entries changed (with_mgr (materialize scope) s) Hall)
    as [w' Hrun].
  unfold bind at 1. rewrite Hrun. rewrite filterBoolean_changed. fold results.
  exists w'. destruct (length results =? 0)%nat; [done|].
  simpl undoStack.
  destruct (resolve_cases UndoSide (mgr s) scope) as [Hu|[v Hu]]; rewrite Hu; [|done].
  unfold bind at 1. rewrite push_array. unfold bind, modify, ret, with_mgr.
  cbn [mgr world trace]. by rewrite elements_materialize.
Qed.

(** *** Stacks and well-formedness after a method *)

Lemma stackOf_ext sd m m' k :
  store sd m' !! k = store sd m !! k -> stackOf sd m' k = stackOf sd m k.
Proof. unfold stackOf, resolve, elements. by intros ->. Qed.

Lemma stackOf_elements sd m k :
  inherited k = None -> stackOf sd m k = Some (elements sd k m).
Proof. intros Hin. unfold stackOf. by rewrite wf_resolve. Qed.

Lemma move_default from (call : Handle -> ScopeKey -> Call Handle)
  (op : Handle -> ScopeKey -> World -> completion unit * World) arg :
  move from call op arg = move from call op (Some (default defaultScope arg)).
Proof. by destruct arg. Qed.

Lemma lookup_setProp_ne sd sd' A l m B :
  A <> B -> store sd (setProp sd' A l m) !! B = store sd m !! B.
Proof.
  intros Hne. rewrite store_setProp. case_decide; [|done].
  by rewrite lookup_insert_ne.
Qed.

Lemma move_frame from call op A B s sd :
  A <> B ->
  store sd (mgr (move from call op (Some A) s).2) !! B = store sd (mgr s) !! B.
Proof.
  intros Hne.
  destruct (move_shape from call op A s) as [_ [->|[[_ [l ->]]|(_ & _ & l & l' & ->)]]];
    rewrite ?lookup_setProp_ne by done; by apply lookup_materialize_ne.
Qed.

Lemma endTransaction_frame options B s sd :
  default defaultScope (opt_scope options) <> B ->
  store sd (mgr (endTransaction options s).2) !! B = store sd (mgr s) !! B.
Proof.
  intros Hne.
  destruct (endTransaction_shape options s) as [_ [->|[_ [l ->]]]];
    rewrite ?lookup_setProp_ne by done; by apply lookup_materialize_ne.
Qed.

Lemma wf_move from call op arg s :
  wf (mgr s) -> wf (mgr (move from call op arg s).2).
Proof.
  intros Hwf. rewrite move_default.
  destruct (move_shape from call op (default defaultScope arg) s)
    as [_ [->|[[Hf [l ->]]|(Hf & Ht & l & l' & ->)]]].
  - by apply wf_materialize.
  - apply resolve_array in Hf as (_ & _ & Hin); [|done].
    by apply wf_setProp; [apply wf_materialize|].
  - apply resolve_array in Hf as (_ & _ & Hin); [|done].
    by repeat apply wf_setProp; [apply wf_materialize|..].
Qed.

Lemma wf_endTransaction options s :
  wf (mgr s) -> wf (mgr (endTransaction options s).2).
Proof.
  intros Hwf.
  destruct (endTransaction_shape options s) as [_ [->|[Hu [l ->]]]].
  - by apply wf_materialize.
  - apply resolve_array in Hu as (_ & _ & Hin); [|done].
    by repeat apply wf_setProp; [apply wf_materialize|..].
Qed.

Lemma wf_ask q arg s : wf (mgr s) -> wf (mgr (ask q arg s).2).
Proof. intros Hwf. rewrite ask_state. by apply wf_materialize. Qed.

Lemma wf_startTransaction dependencies s :
  wf (mgr s) -> wf (mgr (startTransaction dependencies s).2).
Proof.
  intros Hwf. unfold startTransaction, bind at 1, gets at 1.
  rewrite forEach_mgr; [done|]. intros h s'. apply invoke_mgr.
Qed.

Lemma wf_addHandle handle s : wf (mgr s) -> wf (mgr (addHandle handle s).2).
Proof.
  intros Hwf. unfold addHandle, bind at 1.
  destruct handle as [d|h]; simpl.
  - unfold construct. destruct (newAutomergeRepoUndoRedo d (world s)) as [[h|e] w]; simpl;
      [by apply wf_set_handles|done].
  - by apply wf_set_handles.
Qed.

(** A query's completion does not depend on whether some scope has been
    materialized. *)
Lemma answerFrom_materialize q k m scope :
  answerFrom q (materialize k m) scope = answerFrom q m scope.
Proof.
  unfold answerFrom. destruct q; by rewrite resolve_materialize, elements_materialize.
Qed.

Lemma ask_materialize q arg k s :
  (ask q arg (with_mgr (materialize k) s)).1 = (ask q arg s).1.
Proof. rewrite !ask_run. apply answerFrom_materialize. Qed.

(** *** The registry *)

Lemma targetHandles_spec dependencies (hs : list (DocumentId * Handle)) :
  targetHandles dependencies hs = targetHandleSet dependencies hs.
Proof.
  destruct dependencies as [deps|]; [|done]. simpl. unfold registeredAmong.
  induction deps as [|id deps IH]; [done|]. simpl.
  destruct (JsMap.get id hs); simpl; by rewrite IH.
Qed.

Lemma handleEntries_spec options (hs : list (DocumentId * Handle)) :
  map snd (handleEntries options hs) = targetHandleSet (opt_dependencies options) hs.
Proof.
  unfold handleEntries. destruct (opt_dependencies options) as [deps|]; [|done].
  simpl. unfold registeredAmong.
  induction deps as [|id deps IH]; [done|]. simpl.
  destruct (JsMap.get id hs); simpl; by rewrite IH.
Qed.

Lemma elem_of_registeredAmong (hs : list (DocumentId * Handle)) deps h :
  h ∈ registeredAmong hs deps <-> exists id, id ∈ deps /\ JsMap.get id hs = Some h.
Proof. unfold registeredAmong. apply list_elem_of_omap. Qed.

Lemma get_elem_of id h (hs : list (DocumentId * Handle)) :
  JsMap.get id hs = Some h -> (id, h) ∈ hs.
Proof.
  induction hs as [|[k v] hs IH]; simpl; [done|].
  case_decide; [intros [= ->]; subst; left|right; auto].
Qed.

Lemma endTransaction_trace options s :
  Forall (fun h => neverRaises (h_endTransaction h options))
         (targetHandleSet (opt_dependencies options) (priv_handles (mgr s))) ->
  trace (endTransaction options s).2 =
    trace s ++ map (fun h => CallEndTransaction h options)
                   (targetHandleSet (opt_dependencies options) (priv_handles (mgr s))).
Proof.
  intros Hall. rewrite <- handleEntries_spec in Hall |- *.
  rewrite List.Forall_map in Hall. rewrite map_map.
  unfold endTransaction. unfold bind at 1. rewrite getStacks_run.
  unfold bind at 1, gets at 1. simpl mgr. rewrite handles_materialize.
  destruct (collect_run options _ (with_mgr (materialize
              (default defaultScope (opt_scope options))) s) Hall)
    as (nullable & w' & Hrun).
  unfold bind at 1. rewrite Hrun.
  destruct (length (filterBoolean nullable) =? 0)%nat; [done|].
  simpl undoStack.
  destruct (resolve_cases UndoSide (mgr s) (default defaultScope (opt_scope options)))
    as [Hu|[v Hu]]; rewrite Hu; done.
Qed.

Lemma filter_changed_Exists (entries : list (DocumentId * Handle)) (changed : Handle -> bool) :
  Exists (fun e => changed e.2 = true) entries ->
  (length (map fst (filter (fun e => changed e.2 = true) entries)) =? 0)%nat = false.
Proof.
  intros (e & Hin & He)%Exists_exists. apply Nat.eqb_neq.
  rewrite length_map. intros Hlen%nil_length_inv.
  assert (e ∈ filter (fun e => changed e.2 = true) entries) as Hmem
    by (by apply list_elem_of_filter).
  rewrite Hlen in Hmem. by apply not_elem_of_nil in Hmem.
Qed.

(** *** A handle that raises during the replay *)

Lemma undos_run arg s :
  undos arg s =
    (match resolve UndoSide (mgr s) (default defaultScope arg) with
     | ArrayAt _ _ =>
         Normal (map description (elements UndoSide (default defaultScope arg) (mgr s)))
     | Inherited _ => Throw (TypeError "map is not a function")
     | Undefined => Throw (TypeError "Cannot read properties of undefined, reading map")
     end,
     with_mgr (materialize (default defaultScope arg)) s).
Proof.
  unfold undos. unfold bind at 1. rewrite getStacks_run. simpl undoStack.
  destruct (resolve_cases UndoSide (mgr s) (default defaultScope arg)) as [Hr|[v Hr]];
    rewrite Hr; [|done].
  unfold arrayMap, bind, gets, ret. simpl mgr. by rewrite elements_materialize.
Qed.

Lemma redos_run arg s :
  redos arg s =
    (match resolve RedoSide (mgr s) (default defaultScope arg) with
     | ArrayAt _ _ =>
         Normal (map description (elements RedoSide (default defaultScope arg) (mgr s)))
     | Inherited _ => Throw (TypeError "map is not a function")
     | Undefined => Throw (TypeError "Cannot read properties of undefined, reading map")
     end,
     with_mgr (materialize (default defaultScope arg)) s).
Proof.
  unfold redos. unfold bind at 1. rewrite getStacks_run. simpl redoStack.
  destruct (resolve_cases RedoSide (mgr s) (default defaultScope arg)) as [Hr|[v Hr]];
    rewrite Hr; [|done].
  unfold arrayMap, bind, gets, ret. simpl mgr. by rewrite elements_materialize.
Qed.

Lemma stackOf_setProp_eq sd scope l m : stackOf sd (setProp sd scope l m) scope = Some l.
Proof.
  apply stackOf_lookup. rewrite store_setProp, decide_True by done.
  apply lookup_insert_eq.
Qed.

Lemma stackOf_setProp_other sd sd' scope l m k :
  sd <> sd' -> stackOf sd (setProp sd' scope l m) k = stackOf sd m k.
Proof.
  intros Hne. apply stackOf_ext. by rewrite store_setProp, decide_False.
Qed.

Lemma wf_transaction (fn : M (option string)) options s :
  (forall s0, wf (mgr s0) -> wf (mgr (fn s0).2)) ->
  wf (mgr s) -> wf (mgr (transaction fn options s).2).
Proof.
  intros Hfn Hwf. unfold transaction. unfold bind at 1.
  pose proof (wf_startTransaction (opt_dependencies options) s Hwf) as H1.
  destruct (startTransaction _ s) as [[[]|e] s1]; [|done]. simpl in H1.
  unfold bind at 1. pose proof (Hfn s1 H1) as H2.
  destruct (fn s1) as [[d|e] s2]; [|done]. simpl in H2.
  by apply wf_endTransaction.
Qed.

(** Well-formedness is an invariant of the manager: it holds of
    [new UndoRedoManager()] and every method keeps it, whatever its
    completion. *)
Theorem wf_invariant s :
  wf (@newManager Handle) /\
  (wf (mgr s) ->
   (forall handle, wf (mgr (addHandle handle s).2)) /\
   (forall dependencies, wf (mgr (startTransaction dependencies s).2)) /\
   (forall options, wf (mgr (endTransaction options s).2)) /\
   (forall arg, wf (mgr (undo arg s).2)) /\
   (forall arg, wf (mgr (redo arg s).2)) /\
   (forall q arg, wf (mgr (ask q arg s).2))).
Proof.
  split; [apply wf_newManager|]. intros Hwf. repeat split; intros.
  - by apply wf_addHandle.
  - by apply wf_startTransaction.
  - by apply wf_endTransaction.
  - rewrite undo_move. by apply wf_move.
  - rewrite redo_move. by apply wf_move.
  - by apply wf_ask.
Qed.

End Properties.

(** * The scenarios of the specification *)

Section Scenarios.
Import Sample.

Example scenario_1 :
  (scenario1 start).1 =
    Normal (Some {| r_description := Some "edit both";
                    r_ids := ["doc1"; "doc2"];
                    r_scope := defaultScope |})
  /\ (canUndo None (scenario1 start).2).1 = Normal true.
Proof. split; reflexivity. Qed.

Example scenario_2 :
  let s1 := (scenario1 start).2 in
  (undo None s1).1 =
    Normal (Some {| r_description := Some "edit both";
                    r_ids := ["doc1"; "doc2"];
                    r_scope := defaultScope |})
  /\ trace (undo None s1).2 =
       trace s1 ++ [CallUndo edit1 defaultScope; CallUndo edit2 defaultScope]
  /\ (canRedo None (undo None s1).2).1 = Normal true
  /\ (canUndo None (undo None s1).2).1 = Normal false.
Proof. repeat split; reflexivity. Qed.

Example scenario_3 :
  (scenario3 start).1 = Normal None
  /\ (undos (Some (Named "panelA")) (scenario3 start).2).1 = Normal [].
Proof. split; reflexivity. Qed.

Example scenario_4 :
  let s2 := (scenario4 start).2 in
  (undos None s2).1 = Normal [Some "a"; Some "b"]
  /\ (undos None (undo None s2).2).1 = Normal [Some "a"]
  /\ (redos None (undo None s2).2).1 = Normal [Some "b"].
Proof. repeat split; reflexivity. Qed.

End Scenarios.

(** * Runs of the collaborators *)

Section Runs.
Context {DocHandle Handle World : Type}.
Context `{!AutomergeRepoUndoRedo DocHandle Handle World}.
#[local] Abbreviation M := (M Handle World).
Implicit Types (m : Manager Handle) (s : State Handle World).
Implicit Types (scope : ScopeKey) (sd : side) (c : Change).

Lemma runCalls_app {A} (a b : list (World -> completion A * World)) w :
  runCalls (a ++ b) w =
    match runCalls a w with
    | (Normal ua, w1) =>
        match runCalls b w1 with
        | (Normal ub, w2) => (Normal (ua ++ ub), w2)
        | (Throw e, w2) => (Throw e, w2)
        end
    | (Throw e, w1) => (Throw e, w1)
    end.
Proof.
  revert w. induction a as [|op a IH]; intros w; simpl.
  - by destruct (runCalls b w) as [[ub|e] w2].
  - destruct (op w) as [[x|e] w1]; [|done]. rewrite IH.
    destruct (runCalls a w1) as [[ua|e] w2]; [|done].
    by destruct (runCalls b w2) as [[ub|e] w3].
Qed.

(** The replay loop calls the registered handles of the Change. *)
Lemma replay_forEach (call : Handle -> ScopeKey -> Call Handle)
  (op : Handle -> ScopeKey -> World -> completion unit * World) scope c s :
  replay call op scope c s =
    forEach (registeredAmong (priv_handles (mgr s)) (ids c))
            (fun h => invoke (call h scope) (op h scope)) s.
Proof.
  unfold replay, registeredAmong. generalize (ids c) as l. intros l. revert s.
  induction l as [|id l IH]; intros s; [done|].
  rewrite forEach_cons. unfold bind at 1, gets at 1. simpl omap.
  destruct (JsMap.get id (priv_handles (mgr s))) as [h|] eqn:Hget.
  - rewrite forEach_cons.
    pose proof (invoke_mgr (call h scope) (op h scope) s) as Hmgr.
    destruct (invoke (call h scope) (op h scope) s) as [[[]|e] s1]; [|done].
    simpl in Hmgr. rewrite IH. by rewrite Hmgr.
  - unfold ret at 1. apply IH.
Qed.

(** A loop of calls, when the calls of this run complete. *)
Lemma forEach_invoke_normal (c : Handle -> Call Handle)
  (o : Handle -> World -> completion unit * World) l s us w' :
  runCalls (map o l) (world s) = (Normal us, w') ->
  forEach l (fun h => invoke (c h) (o h)) s =
    (Normal tt, {| mgr := mgr s; world := w'; trace := trace s ++ map c l |}).
Proof.
  destruct s as [m w t]. simpl. revert w t us.
  induction l as [|h l IH]; intros w t us; simpl.
  - intros [= _ <-]. by rewrite app_nil_r.
  - fold (forEach l (fun h => invoke (c h) (o h))).
    unfold bind at 1, invoke at 1. simpl.
    destruct (o h w) as [[[]|e] w1]; [|done].
    destruct (runCalls (map o l) w1) as [[us'|e] w2] eqn:Hrest; [|done].
    intros [= _ <-]. rewrite (IH _ _ _ Hrest). by rewrite <- app_assoc.
Qed.

(** A loop of calls, when a call of this run raises. *)
Lemma forEach_invoke_raise (c : Handle -> Call Handle)
  (o : Handle -> World -> completion unit * World) pre h post s us w1 e w2 :
  runCalls (map o pre) (world s) = (Normal us, w1) ->
  o h w1 = (Throw e, w2) ->
  forEach (pre ++ h :: post) (fun h => invoke (c h) (o h)) s =
    (Throw e, {| mgr := mgr s; world := w2; trace := trace s ++ map c (pre ++ [h]) |}).
Proof.
  destruct s as [m w t]. simpl. revert w t us.
  induction pre as [|h' pre IH]; intros w t us; simpl.
  - intros [= _ <-] Hop. fold (forEach post (fun h => invoke (c h) (o h))).
    unfold bind at 1, invoke at 1. simpl. by rewrite Hop.
  - fold (forEach (pre ++ h :: post) (fun h => invoke (c h) (o h))).
    unfold bind at 1, invoke at 1. simpl.
    destruct (o h' w) as [[[]|e'] w0]; [|done].
    destruct (runCalls (map o pre) w0) as [[us'|e'] w3] eqn:Hrest; [|done].
    intros [= _ <-] Hop. rewrite (IH _ _ _ Hrest Hop). by rewrite <- app_assoc.
Qed.

Lemma replay_normal (call : Handle -> ScopeKey -> Call Handle)
  (op : Handle -> ScopeKey -> World -> completion unit * World) S C s us w' :
  runCalls (map (fun h => op h S) (registeredAmong (priv_handles (mgr s)) (ids C)))
           (world s) = (Normal us, w') ->
  replay call op S C s =
    (Normal tt,
     {| mgr := mgr s; world := w';
        trace := trace s ++
          map (fun h => call h S) (registeredAmong (priv_handles (mgr s)) (ids C)) |}).
Proof.
  intros Hrun. rewrite replay_forEach.
  by apply (forEach_invoke_normal (fun h => call h S) (fun h => op h S)) with us.
Qed.

Lemma replay_raise (call : Handle -> ScopeKey -> Call Handle)
  (op : Handle -> ScopeKey -> World -> completion unit * World)
  S C s pre h post us w1 e w2 :
  registeredAmong (priv_handles (mgr s)) (ids C) = pre ++ h :: post ->
  runCalls (map (fun h' => op h' S) pre) (world s) = (Normal us, w1) ->
  op h S w1 = (Throw e, w2) ->
  replay call op S C s =
    (Throw e,
     {| mgr := mgr s; world := w2;
        trace := trace s ++ map (fun h' => call h' S) (pre ++ [h]) |}).
Proof.
  intros Hlist Hpre Hop. rewrite replay_forEach, Hlist.
  by apply (forEach_invoke_raise (fun h => call h S) (fun h => op h S)) with us w1.
Qed.

(** The loop of [endTransaction], when the calls of this run complete:
    the answers select the identifiers. *)
Lemma collect_normal options entries s bs w' :
  runCalls (map (fun e => h_endTransaction e.2 options) entries) (world s)
    = (Normal bs, w') ->
  mapM entries (reportChange options) s =
    (Normal (zip_with (fun e (b : bool) => if b then Some e.1 else None) entries bs),
     {| mgr := mgr s; world := w';
        trace := trace s ++ map (fun e => CallEndTransaction e.2 options) entries |}).
Proof.
  destruct s as [m w t]. simpl. revert w t bs.
  induction entries as [|[id h] l IH]; intros w t bs.
  - simpl. intros [= <- <-]. by rewrite app_nil_r.
  - rewrite mapM_cons. simpl runCalls.
    unfold reportChange at 1, bind at 1, invoke at 1. simpl.
    destruct (h_endTransaction h options w) as [[b|e] w1]; [|done].
    destruct (runCalls _ w1) as [[bs'|e] w2] eqn:Hrest; [|done].
    intros [= <- <-]. unfold ret at 1. rewrite (IH _ _ _ Hrest). simpl.
    by rewrite <- app_assoc.
Qed.

(** The loop of [endTransaction], when a call of this run raises. *)
Lemma collect_raise options pre id (h : Handle) post s bs w1 e w2 :
  runCalls (map (fun e' => h_endTransaction e'.2 options) pre) (world s)
    = (Normal bs, w1) ->
  h_endTransaction h options w1 = (Throw e, w2) ->
  mapM (pre ++ (id, h) :: post) (reportChange options) s =
    (Throw e,
     {| mgr := mgr s; world := w2;
        trace := trace s ++
          map (fun h' => CallEndTransaction h' options) (map snd pre ++ [h]) |}).
Proof.
  destruct s as [m w t]. simpl. revert w t bs.
  induction pre as [|[id' h'] pre IH]; intros w t bs.
  - intros Hpre Hop. simpl in Hpre. injection Hpre as _ <-.
    simpl app. rewrite mapM_cons.
    unfold reportChange at 1, bind at 1, invoke at 1. simpl. by rewrite Hop.
  - simpl app. rewrite mapM_cons. simpl runCalls.
    unfold reportChange at 1, bind at 1, invoke at 1. simpl.
    destruct (h_endTransaction h' options w) as [[b|e'] w0]; [|done].
    destruct (runCalls _ w0) as [[bs'|e'] w3] eqn:Hrest; [|done].
    intros [= _ <-] Hop. unfold ret at 1. rewrite (IH _ _ _ Hrest Hop). simpl.
    by rewrite <- app_assoc.
Qed.

Lemma filterBoolean_none (entries : list (DocumentId * Handle)) bs :
  Forall (fun b => b = false) bs ->
  filterBoolean (zip_with (fun e (b : bool) => if b then Some e.1 else None) entries bs) = [].
Proof.
  intros Hall. revert entries. induction Hall as [|b bs -> _ IH]; intros [|e entries]; try done.
  simpl. apply IH.
Qed.

(** A move, when the handle calls of this run complete. *)
Lemma move_run from (call : Handle -> ScopeKey -> Call Handle)
  (op : Handle -> ScopeKey -> World -> completion unit * World) S s l C us w' :
  wf (mgr s) ->
  stackOf from (mgr s) S = Some (l ++ [C]) ->
  runCalls (map (fun h => op h S) (registeredAmong (priv_handles (mgr s)) (ids C)))
           (world s) = (Normal us, w') ->
  exists s',
    move from call op (Some S) s =
      (Normal (Some {| r_description := description C; r_ids := ids C; r_scope := S |}),
       s') /\
    priv_handles (mgr s') = priv_handles (mgr s) /\
    store from (mgr s') !! S = Some l /\
    store (opposite from) (mgr s') !! S =
      Some (elements (opposite from) S (mgr s) ++ [C]) /\
    (forall sd k, k <> S -> store sd (mgr s') !! k = store sd (mgr s) !! k) /\
    trace s' = trace s ++
      map (fun h => call h S) (registeredAmong (priv_handles (mgr s)) (ids C)) /\
    world s' = w'.
Proof.
  intros Hwf Hst Hcalls.
  pose proof (stackOf_snoc_own _ _ _ _ _ Hst) as Hown.
  assert (Hin : inherited S = None) by (apply (Hwf from); rewrite Hown; eauto).
  unfold move. simpl default. unfold bind at 1. rewrite getStacks_run.
  rewrite !refOf_resolved by done.
  unfold bind at 1. rewrite pop_array.
  replace (elements from S (mgr (with_mgr (materialize S) s))) with (l ++ [C])
    by (simpl; rewrite elements_materialize; symmetry; by apply elements_lookup).
  rewrite last_snoc, removelast_last.
  unfold bind at 1.
  rewrite (replay_frame call op S C (setProp from S l))
    by (intros; apply handles_setProp).
  rewrite (replay_frame call op S C (materialize S))
    by (intros; apply handles_materialize).
  rewrite (replay_normal call op S C s us w' Hcalls).
  unfold bind at 1. rewrite push_array.
  unfold ret, with_mgr. cbn [mgr world trace].
  eexists. split; [reflexivity|]. cbn [mgr world trace].
  rewrite !handles_setProp, handles_materialize.
  assert (Hel : elements (opposite from) S (setProp from S l (materialize S (mgr s)))
                = elements (opposite from) S (mgr s)).
  { unfold elements. rewrite store_setProp, decide_False by apply opposite_ne.
    apply elements_materialize. }
  rewrite Hel. repeat split.
  - rewrite store_setProp, decide_False by apply opposite_ne'.
    rewrite store_setProp, decide_True by done. apply lookup_insert_eq.
  - rewrite store_setProp, decide_True by done. apply lookup_insert_eq.
  - intros sd k Hk. rewrite !store_setProp.
    repeat case_decide; rewrite ?lookup_insert_ne by done;
      by apply lookup_materialize_ne.
Qed.

(** A move, when a handle call of this run raises. *)
Lemma move_run_raise from (call : Handle -> ScopeKey -> Call Handle)
  (op : Handle -> ScopeKey -> World -> completion unit * World)
  S s l C pre h post us w1 e w2 :
  wf (mgr s) ->
  stackOf from (mgr s) S = Some (l ++ [C]) ->
  registeredAmong (priv_handles (mgr s)) (ids C) = pre ++ h :: post ->
  runCalls (map (fun h' => op h' S) pre) (world s) = (Normal us, w1) ->
  op h S w1 = (Throw e, w2) ->
  exists s',
    move from call op (Some S) s = (Throw e, s') /\
    stackOf from (mgr s') S = Some l /\
    stackOf (opposite from) (mgr s') S = stackOf (opposite from) (mgr s) S /\
    (forall sd k, k <> S -> store sd (mgr s') !! k = store sd (mgr s) !! k) /\
    trace s' = trace s ++ map (fun h' => call h' S) (pre ++ [h]) /\
    world s' = w2.
Proof.
  intros Hwf Hst Hlist Hpre Hop.
  pose proof (replay_raise call op S C s pre h post us w1 e w2 Hlist Hpre Hop) as Hrun.
  destruct (move_raises from call op S s l C e _ Hwf Hst Hrun) as [Hmove _].
  eexists. split; [exact Hmove|]. unfold with_mgr. cbn [mgr world trace].
  split; [apply stackOf_setProp_eq|].
  split; [rewrite stackOf_setProp_other by apply opposite_ne; apply stackOf_materialize|].
  split; [|done].
  intros sd k Hk. rewrite lookup_setProp_ne by done. by apply lookup_materialize_ne.
Qed.

(** A move and the opposite move, when the handle calls of the two runs
    complete. *)
Lemma move_there_and_back_run from
  (call1 call2 : Handle -> ScopeKey -> Call Handle)
  (op1 op2 : Handle -> ScopeKey -> World -> completion unit * World)
  S s l C us1 w1 us2 w2 :
  wf (mgr s) ->
  stackOf from (mgr s) S = Some (l ++ [C]) ->
  runCalls (map (fun h => op1 h S) (registeredAmong (priv_handles (mgr s)) (ids C)))
           (world s) = (Normal us1, w1) ->
  runCalls (map (fun h => op2 h S) (registeredAmong (priv_handles (mgr s)) (ids C)))
           w1 = (Normal us2, w2) ->
  exists s1 s2,
    let returned :=
      {| r_description := description C; r_ids := ids C; r_scope := S |} in
    move from call1 op1 (Some S) s = (Normal (Some returned), s1) /\
    move (opposite from) call2 op2 (Some S) s1 = (Normal (Some returned), s2) /\
    (forall sd k, stackOf sd (mgr s2) k = stackOf sd (mgr s) k) /\
    world s1 = w1 /\ world s2 = w2 /\
    trace s2 = trace s ++
      map (fun h => call1 h S) (registeredAmong (priv_handles (mgr s)) (ids C)) ++
      map (fun h => call2 h S) (registeredAmong (priv_handles (mgr s)) (ids C)).
Proof.
  intros Hwf Hst Hrun1 Hrun2.
  pose proof (stackOf_snoc_own _ _ _ _ _ Hst) as Hown.
  assert (Hin : inherited S = None) by (apply (Hwf from); rewrite Hown; eauto).
  destruct (move_run from call1 op1 S s l C us1 w1 Hwf Hst Hrun1)
    as (s1 & Hmove1 & Hhs1 & Hf1 & Ht1 & Hothers1 & Htrace1 & Hw1).
  assert (Hwf1 : wf (mgr s1)).
  { pose proof (wf_move from call1 op1 (Some S) s Hwf) as H1.
    by rewrite Hmove1 in H1. }
  destruct (move_run (opposite from) call2 op2 S s1
              (elements (opposite from) S (mgr s)) C us2 w2 Hwf1)
    as (s2 & Hmove2 & _ & Ht2 & Hf2 & Hothers2 & Htrace2 & Hw2).
  { by apply stackOf_lookup. }
  { by rewrite Hhs1, Hw1. }
  exists s1, s2. cbv zeta. split; [done|]. split; [done|].
  split; [|split; [done|split; [done|]]].
  - assert (Hoo : opposite (opposite from) = from) by by destruct from.
    rewrite Hoo in Hf2. rewrite (elements_lookup _ _ _ _ Hf1) in Hf2.
    intros sd k. destruct (decide (k = S)) as [->|Hne].
    + assert (Hsd : sd = from \/ sd = opposite from) by (destruct sd, from; auto).
      destruct Hsd as [-> | ->].
      * by rewrite (stackOf_lookup _ _ _ _ Hf2).
      * rewrite (stackOf_lookup _ _ _ _ Ht2). symmetry. by apply stackOf_elements.
    + apply stackOf_ext. by rewrite Hothers2, Hothers1.
  - rewrite Htrace2, Htrace1, Hhs1. by rewrite <- app_assoc.
Qed.

End Runs.

(** * The claims *)

Section Claims.
Context {DocHandle Handle World : Type}.
Context `{!AutomergeRepoUndoRedo DocHandle Handle World}.
Implicit Types (m : Manager Handle) (s : State Handle World).
Implicit Types (scope : ScopeKey) (sd : side) (c : Change).

(** [endTransaction] at a scope that names no member of
    [Object.prototype]: a transaction with an effective change pushes the
    Change made of [options.description] and of the identifiers of the
    handles that reported a change, in iteration order, empties the scope's
    redo stack, and returns the Change with the scope. *)
Lemma endTransaction_records options (changed : Handle -> bool) s :
  let scope := default defaultScope (opt_scope options) in
  let entries := handleEntries options (priv_handles (mgr s)) in
  let results := map fst (filter (fun e => changed e.2 = true) entries) in
  inherited scope = None ->
  Forall (fun e => forall w, exists w',
            h_endTransaction e.2 options w = (Normal (changed e.2), w')) entries ->
  Exists (fun e => changed e.2 = true) entries ->
  exists s',
    endTransaction options s =
      (Normal (Some {| r_description := opt_description options;
                       r_ids := results; r_scope := scope |}), s') /\
    store UndoSide (mgr s') !! scope =
      Some (elements UndoSide scope (mgr s) ++
            [{| description := opt_description options; ids := results |}]) /\
    store RedoSide (mgr s') !! scope = Some [] /\
    priv_handles (mgr s') = priv_handles (mgr s).
Proof.
  intros scope entries results Hin Hall Hex.
  destruct (endTransaction_run options changed s Hall) as [w' Hrun].
  fold scope entries in Hrun.
  rewrite (filter_changed_Exists entries changed Hex) in Hrun.
  rewrite (wf_resolve UndoSide (mgr s) scope Hin) in Hrun.
  eexists. split; [exact Hrun|]. simpl.
  rewrite lookup_insert_eq. simpl. rewrite lookup_insert_eq.
  by rewrite handles_materialize.
Qed.

(** C1, at a scope that names a member of [Object.prototype]: the stores
    are plain objects, so [getStacks] finds the inherited member, creates no
    array, and the push of the new Change raises a [TypeError] after the
    handles have ended their transactions.  Nothing is pushed, the redo
    stack is not replaced and no Change is returned. *)
Theorem endTransaction_inherited_scope options (changed : Handle -> bool) s v :
  let scope := default defaultScope (opt_scope options) in
  let entries := handleEntries options (priv_handles (mgr s)) in
  wf (mgr s) ->
  inherited scope = Some v ->
  Forall (fun e => forall w, exists w',
            h_endTransaction e.2 options w = (Normal (changed e.2), w')) entries ->
  Exists (fun e => changed e.2 = true) entries ->
  exists w',
    endTransaction options s =
      (Throw (TypeError "push is not a function"),
       {| mgr := mgr s; world := w';
          trace := trace s ++ map (fun e => CallEndTransaction e.2 options) entries |}).
Proof.
  intros scope entries Hwf Hin Hall Hex.
  destruct (endTransaction_run options changed s Hall) as [w' Hrun].
  fold scope entries in Hrun.
  rewrite (filter_changed_Exists entries changed Hex) in Hrun.
  destruct (wf_inherited (mgr s) scope v UndoSide Hwf Hin) as (_ & Hres & Hmat).
  rewrite Hres, Hmat in Hrun. eauto.
Qed.

(** C3: when, in a call of [endTransaction], every target handle's
    [endTransaction] returns [false], and also when there is no target
    handle, [endTransaction] returns [undefined] and raises nothing;
    nothing is pushed, the redo stack is not cleared, and the stack of
    every scope, on both sides, has the elements it had; the stores differ
    at most by the empty arrays that [getStacks] creates for the resolved
    scope.  The target handles have been asked, in order, and the
    collaborators are in the state these calls leave. *)
Theorem endTransaction_without_change options s bs w' :
  let scope := default defaultScope (opt_scope options) in
  let entries := handleEntries options (priv_handles (mgr s)) in
  runCalls (map (fun e => h_endTransaction e.2 options) entries) (world s)
    = (Normal bs, w') ->
  Forall (fun b => b = false) bs ->
  exists s',
    endTransaction options s = (Normal None, s') /\
    mgr s' = materialize scope (mgr s) /\
    (forall sd k, stackOf sd (mgr s') k = stackOf sd (mgr s) k) /\
    (forall sd k, elements sd k (mgr s') = elements sd k (mgr s)) /\
    (forall sd k, k <> scope -> store sd (mgr s') !! k = store sd (mgr s) !! k) /\
    world s' = w' /\
    trace s' = trace s ++ map (fun e => CallEndTransaction e.2 options) entries.
Proof.
  intros scope entries Hrun Hfalse.
  unfold endTransaction. fold scope. unfold bind at 1. rewrite getStacks_run.
  unfold bind at 1, gets at 1. simpl mgr. rewrite handles_materialize. fold entries.
  unfold bind at 1.
  rewrite (collect_normal options entries (with_mgr (materialize scope) s) bs w' Hrun).
  rewrite (filterBoolean_none entries bs Hfalse). simpl.
  eexists. split; [reflexivity|]. simpl. split; [done|].
  split; [|split; [|split; [|done]]]; intros sd k.
  - apply stackOf_materialize.
  - apply elements_materialize.
  - apply lookup_materialize_ne.
Qed.

(** C4: for distinct scope keys A and B, an [endTransaction] whose scope
    resolves to A, an [undo(A)] and a [redo(A)] leave both stores at B as
    they were, whatever the completion of the operation. *)
Theorem scope_isolation (A B : ScopeKey) options s :
  A <> B ->
  default defaultScope (opt_scope options) = A ->
  (forall sd, store sd (mgr (endTransaction options s).2) !! B = store sd (mgr s) !! B) /\
  (forall sd, store sd (mgr (undo (Some A) s).2) !! B = store sd (mgr s) !! B) /\
  (forall sd, store sd (mgr (redo (Some A) s).2) !! B = store sd (mgr s) !! B).
Proof.
  intros Hne Hscope. repeat split; intros sd.
  - apply endTransaction_frame. by rewrite Hscope.
  - rewrite undo_move. by apply move_frame.
  - rewrite redo_move. by apply move_frame.
Qed.

(** C5: on a non-empty undo stack, [undo(S)] pops the most recent Change,
    calls [undo(S)] on the registered handle of each identifier of the
    Change, in list order, passing over the identifiers that have no
    registered handle, then pushes the Change onto the redo stack of S and
    returns it with S; [redo(S)] does the same with [redo] and the stacks
    exchanged.  The calls are those of this run: they are assumed to
    complete, and the collaborators end in the state these calls, made one
    after the other, leave. *)
Theorem undo_redo_replay S s :
  let hs := priv_handles (mgr s) in
  wf (mgr s) ->
  (forall l C us w',
   stackOf UndoSide (mgr s) S = Some (l ++ [C]) ->
   runCalls (map (fun h => h_undo h S) (registeredAmong hs (ids C))) (world s)
     = (Normal us, w') ->
   exists s',
     undo (Some S) s =
       (Normal (Some {| r_description := description C; r_ids := ids C; r_scope := S |}),
        s') /\
     stackOf UndoSide (mgr s') S = Some l /\
     stackOf RedoSide (mgr s') S = Some (elements RedoSide S (mgr s) ++ [C]) /\
     trace s' = trace s ++ map (fun h => CallUndo h S) (registeredAmong hs (ids C)) /\
     world s' = w')
  /\
  (forall l C us w',
   stackOf RedoSide (mgr s) S = Some (l ++ [C]) ->
   runCalls (map (fun h => h_redo h S) (registeredAmong hs (ids C))) (world s)
     = (Normal us, w') ->
   exists s',
     redo (Some S) s =
       (Normal (Some {| r_description := description C; r_ids := ids C; r_scope := S |}),
        s') /\
     stackOf RedoSide (mgr s') S = Some l /\
     stackOf UndoSide (mgr s') S = Some (elements UndoSide S (mgr s) ++ [C]) /\
     trace s' = trace s ++ map (fun h => CallRedo h S) (registeredAmong hs (ids C)) /\
     world s' = w').
Proof.
  intros hs Hwf. split; intros l C us w' Hst Hrun.
  - rewrite undo_move.
    destruct (move_run UndoSide CallUndo h_undo S s l C us w' Hwf Hst Hrun)
      as (s' & Hmove & _ & Hfrom & Hto & _ & Htrace & Hworld).
    exists s'. split; [done|].
    split; [by apply (stackOf_lookup UndoSide)|].
    split; [by apply (stackOf_lookup RedoSide)|done].
  - rewrite redo_move.
    destruct (move_run RedoSide CallRedo h_redo S s l C us w' Hwf Hst Hrun)
      as (s' & Hmove & _ & Hfrom & Hto & _ & Htrace & Hworld).
    exists s'. split; [done|].
    split; [by apply (stackOf_lookup RedoSide)|].
    split; [by apply (stackOf_lookup UndoSide)|done].
Qed.

(** [undo] and [redo] on a stack that is an empty array: they return
    [undefined], call no handle, and the stack of every scope, on both
    sides, has the elements it had. *)
Lemma undo_redo_on_empty S s :
  (stackOf UndoSide (mgr s) S = Some [] ->
   exists s',
     undo (Some S) s = (Normal None, s') /\
     trace s' = trace s /\ world s' = world s /\
     (forall sd k, stackOf sd (mgr s') k = stackOf sd (mgr s) k) /\
     (forall sd k, elements sd k (mgr s') = elements sd k (mgr s)))
  /\
  (stackOf RedoSide (mgr s) S = Some [] ->
   exists s',
     redo (Some S) s = (Normal None, s') /\
     trace s' = trace s /\ world s' = world s /\
     (forall sd k, stackOf sd (mgr s') k = stackOf sd (mgr s) k) /\
     (forall sd k, elements sd k (mgr s') = elements sd k (mgr s))).
Proof.
  split; intros Hst; eexists;
    (split; [rewrite ?undo_move, ?redo_move; by apply move_empty|]);
    simpl; repeat split; intros sd k;
    (apply stackOf_materialize || apply elements_materialize).
Qed.

(** C7, at a scope that names a member of [Object.prototype]: neither
    store holds anything for such a scope, so its undo and redo stacks are
    empty, and yet [undo(S)] and [redo(S)] raise a [TypeError] where
    [undefined] should be returned: [getStacks] finds the inherited member
    in place of the scope's array, creates no array, and the call of [pop]
    on it fails.  Nothing else changes and no handle is called. *)
Theorem undo_redo_on_empty_inherited_scope S v s :
  wf (mgr s) ->
  inherited S = Some v ->
  (forall sd, store sd (mgr s) !! S = None /\ elements sd S (mgr s) = []) /\
  undo (Some S) s = (Throw (TypeError "pop is not a function"), s) /\
  redo (Some S) s = (Throw (TypeError "pop is not a function"), s).
Proof.
  intros Hwf Hin.
  destruct (wf_inherited (mgr s) S v UndoSide Hwf Hin) as (_ & Hu & Hmat).
  destruct (wf_inherited (mgr s) S v RedoSide Hwf Hin) as (_ & Hr & _).
  assert (Hs : with_mgr (materialize S) s = s) by by apply with_mgr_fixed.
  split; [|split].
  - intros sd. destruct (wf_inherited (mgr s) S v sd Hwf Hin) as (Hnone & _ & _).
    split; [done|]. unfold elements. by rewrite Hnone.
  - unfold undo. simpl default. unfold bind at 1. rewrite getStacks_run, Hs.
    simpl undoStack. by rewrite Hu.
  - unfold redo. simpl default. unfold bind at 1. rewrite getStacks_run, Hs.
    simpl redoStack. by rewrite Hr.
Qed.

(** C2: on a non-empty undo stack with top Change C, [undo(S)] followed by
    [redo(S)] leaves the stack of every scope, on both sides, with the
    elements it had before the undo, and both calls return the description
    and ids of C with the scope S.  The handle calls of the two runs (the
    [undo]s of the Change's registered handles, then their [redo]s from
    the state the [undo]s leave) are assumed to complete. *)
Theorem undo_then_redo S s l C us w1 rs w2 :
  let hs := priv_handles (mgr s) in
  wf (mgr s) ->
  stackOf UndoSide (mgr s) S = Some (l ++ [C]) ->
  runCalls (map (fun h => h_undo h S) (registeredAmong hs (ids C))) (world s)
    = (Normal us, w1) ->
  runCalls (map (fun h => h_redo h S) (registeredAmong hs (ids C))) w1
    = (Normal rs, w2) ->
  exists s1 s2,
    let returned :=
      {| r_description := description C; r_ids := ids C; r_scope := S |} in
    undo (Some S) s = (Normal (Some returned), s1) /\
    redo (Some S) s1 = (Normal (Some returned), s2) /\
    (forall sd k, stackOf sd (mgr s2) k = stackOf sd (mgr s) k) /\
    world s1 = w1 /\ world s2 = w2.
Proof.
  intros hs Hwf Hst Hundo Hredo. rewrite undo_move.
  destruct (move_there_and_back_run UndoSide CallUndo CallRedo h_undo h_redo
              S s l C us w1 rs w2 Hwf Hst Hundo Hredo)
    as (s1 & s2 & H1 & H2 & H3 & H4 & H5 & _).
  exists s1, s2. rewrite redo_move. by repeat split.
Qed.

(** C6: the handles [startTransaction] and [endTransaction] address are,
    with a dependencies list, the registered handles of the listed
    identifiers that are registered, in the order of the list, an
    unregistered identifier contributing nothing and raising nothing, and
    without a dependencies list all registered handles; each method calls
    exactly these handles, in this order. *)
Theorem target_handles dependencies options s :
  let hs := priv_handles (mgr s) in
  targetHandles dependencies hs = targetHandleSet dependencies hs /\
  map snd (handleEntries options hs) = targetHandleSet (opt_dependencies options) hs /\
  (forall deps h, h ∈ targetHandleSet (Some deps) hs <->
                  exists id, id ∈ deps /\ JsMap.get id hs = Some h) /\
  (forall id h, JsMap.get id hs = Some h -> h ∈ targetHandleSet None hs) /\
  (Forall (fun h => neverRaises (h_startTransaction h)) (targetHandleSet dependencies hs) ->
   exists w',
     startTransaction dependencies s =
       (Normal tt,
        {| mgr := mgr s; world := w';
           trace := trace s ++
             map CallStartTransaction (targetHandleSet dependencies hs) |})) /\
  (Forall (fun h => neverRaises (h_endTransaction h options))
          (targetHandleSet (opt_dependencies options) hs) ->
   trace (endTransaction options s).2 =
     trace s ++ map (fun h => CallEndTransaction h options)
                    (targetHandleSet (opt_dependencies options) hs)).
Proof.
  intros hs. split; [apply targetHandles_spec|].
  split; [apply handleEntries_spec|].
  split; [intros deps h; apply elem_of_registeredAmong|].
  split.
  { intros id h Hget%get_elem_of. simpl.
    apply list_elem_of_In, in_map_iff. exists (id, h). split; [done|].
    by apply list_elem_of_In. }
  split.
  - intros Hall. rewrite <- targetHandles_spec in Hall |- *.
    by apply startTransaction_run.
  - apply endTransaction_trace.
Qed.

(** C8, at a scope that names a member of [Object.prototype]: [undos(S)]
    and [redos(S)] read the inherited member where the scope's array should
    be, and the call of its [map] raises a [TypeError]; no list of
    descriptions is returned. *)
Theorem undos_redos_inherited_scope S v s :
  wf (mgr s) ->
  inherited S = Some v ->
  undos (Some S) s = (Throw (TypeError "map is not a function"), s) /\
  redos (Some S) s = (Throw (TypeError "map is not a function"), s).
Proof.
  intros Hwf Hin.
  destruct (wf_inherited (mgr s) S v UndoSide Hwf Hin) as (_ & Hu & Hmat).
  destruct (wf_inherited (mgr s) S v RedoSide Hwf Hin) as (_ & Hr & _).
  rewrite undos_run, redos_run. simpl default. rewrite Hu, Hr.
  by rewrite (with_mgr_fixed _ _ Hmat).
Qed.

(** [undos(S)] and [redos(S)] at a scope whose stack is an array: they
    return the descriptions of the stack's Changes in stored order, the
    oldest first. *)
Lemma undos_redos_descriptions S s :
  (forall l, stackOf UndoSide (mgr s) S = Some l ->
     (undos (Some S) s).1 = Normal (map description l)) /\
  (forall l, stackOf RedoSide (mgr s) S = Some l ->
     (redos (Some S) s).1 = Normal (map description l)).
Proof.
  split; intros l [Hres Hel]%stackOf_Some.
  - rewrite undos_run. simpl. by rewrite Hres, Hel.
  - rewrite redos_run. simpl. by rewrite Hres, Hel.
Qed.

(** C9: a query ([undos], [redos], [canUndo], [canRedo]) calls no handle
    and leaves the stack of every scope, on both sides, with the elements
    it had; and any query asked after it completes as it would have
    before it, so that repeated queries return identical results. *)
Theorem queries_read_only q arg s :
  let s' := (ask q arg s).2 in
  trace s' = trace s /\ world s' = world s /\
  priv_handles (mgr s') = priv_handles (mgr s) /\
  (forall sd k, stackOf sd (mgr s') k = stackOf sd (mgr s) k) /\
  (forall sd k, elements sd k (mgr s') = elements sd k (mgr s)) /\
  (forall q' arg', (ask q' arg' s').1 = (ask q' arg' s).1).
Proof.
  cbv zeta. rewrite ask_state. simpl.
  split; [done|]. split; [done|]. split; [apply handles_materialize|].
  split; [intros; apply stackOf_materialize|].
  split; [intros; apply elements_materialize|].
  intros q' arg'. apply ask_materialize.
Qed.

(** C10: when, during [undo(S)] on a non-empty undo stack, the [undo(S)]
    of a registered handle of the popped Change raises, [undo(S)] raises
    the same exception, and afterwards the Change is gone from the undo
    stack of S and has not been pushed onto its redo stack, which has the
    elements it had; the handles after the one that raised are not called.
    The same holds of [redo(S)] with the stacks exchanged.  The run is
    the one of this call: the handles before complete, from the current
    state of the collaborators, and the next one raises in the state they
    leave. *)
Theorem replay_failure_loses_change S s :
  let hs := priv_handles (mgr s) in
  wf (mgr s) ->
  (forall l C pre h post us w1 e w2,
   stackOf UndoSide (mgr s) S = Some (l ++ [C]) ->
   registeredAmong hs (ids C) = pre ++ h :: post ->
   runCalls (map (fun h' => h_undo h' S) pre) (world s) = (Normal us, w1) ->
   h_undo h S w1 = (Throw e, w2) ->
   exists s',
     undo (Some S) s = (Throw e, s') /\
     stackOf UndoSide (mgr s') S = Some l /\
     stackOf RedoSide (mgr s') S = stackOf RedoSide (mgr s) S /\
     trace s' = trace s ++ map (fun h' => CallUndo h' S) (pre ++ [h]) /\
     world s' = w2)
  /\
  (forall l C pre h post us w1 e w2,
   stackOf RedoSide (mgr s) S = Some (l ++ [C]) ->
   registeredAmong hs (ids C) = pre ++ h :: post ->
   runCalls (map (fun h' => h_redo h' S) pre) (world s) = (Normal us, w1) ->
   h_redo h S w1 = (Throw e, w2) ->
   exists s',
     redo (Some S) s = (Throw e, s') /\
     stackOf RedoSide (mgr s') S = Some l /\
     stackOf UndoSide (mgr s') S = stackOf UndoSide (mgr s) S /\
     trace s' = trace s ++ map (fun h' => CallRedo h' S) (pre ++ [h]) /\
     world s' = w2).
Proof.
  intros hs Hwf. split; intros l C pre h post us w1 e w2 Hst Hlist Hpre Hraise.
  - rewrite undo_move.
    destruct (move_run_raise UndoSide CallUndo h_undo S s l C pre h post us w1 e w2
                Hwf Hst Hlist Hpre Hraise) as (s' & Hmove & Hu & Hr & _ & Htrace & Hw).
    by exists s'.
  - rewrite redo_move.
    destruct (move_run_raise RedoSide CallRedo h_redo S s l C pre h post us w1 e w2
                Hwf Hst Hlist Hpre Hraise) as (s' & Hmove & Hr & Hu & _ & Htrace & Hw).
    by exists s'.
Qed.

End Claims.

(** * The claims on the sample collaborator *)

Section Instances.
Import Sample.

#[local] Ltac total := intros ?; repeat eexists; reflexivity.

Lemma wf_fresh : wf (mgr fresh).
Proof. apply wfb_wf. vm_compute. reflexivity. Defined.

Lemma wf_edited : wf (mgr edited).
Proof. apply wfb_wf. vm_compute. reflexivity. Defined.

(** Two documents report a change, the scope is the string
    "constructor", and [endTransaction] raises. *)
Lemma endTransaction_inherited_scope_witness :
  let options := {| opt_description := Some "edit";
                    opt_scope := Some (Named "constructor");
                    opt_dependencies := None |} in
  wf (mgr fresh) /\
  inherited (Named "constructor") = Some (ProtoFunction 1) /\
  Exists (fun e => changes e.2 = true) (handleEntries options (priv_handles (mgr fresh))) /\
  exists w',
    endTransaction options fresh =
      (Throw (TypeError "push is not a function"),
       {| mgr := mgr fresh; world := w';
          trace := [CallEndTransaction doc1 options; CallEndTransaction doc2 options;
                    CallEndTransaction doc3 options] |}).
Proof.
  intros options.
  assert (Hex : Exists (fun e => changes e.2 = true)
                       (handleEntries options (priv_handles (mgr fresh))))
    by (constructor; reflexivity).
  refine (conj wf_fresh (conj eq_refl (conj Hex _))).
  apply (endTransaction_inherited_scope options changes fresh (ProtoFunction 1)
           wf_fresh eq_refl); [|exact Hex].
  repeat constructor; total.
Defined.

(** The second and the first document replay the undo and then the redo. *)
Lemma undo_then_redo_witness :
  let s := Stateful.edited Stateful.clean in
  stackOf UndoSide (mgr s) defaultScope = Some ([changeA] ++ [changeB]) /\
  exists s1 s2,
    let returned := {| r_description := Some "b";
                       r_ids := ["doc2"; "ghost"; "doc1"];
                       r_scope := defaultScope |} in
    undo (Some defaultScope) s = (Normal (Some returned), s1) /\
    redo (Some defaultScope) s1 = (Normal (Some returned), s2) /\
    (forall sd k, stackOf sd (mgr s2) k = stackOf sd (mgr s) k) /\
    world s1 = {| Stateful.dirty := []; Stateful.offline := [];
                  Stateful.replayed := ["doc2"; "doc1"] |} /\
    world s2 = {| Stateful.dirty := []; Stateful.offline := [];
                  Stateful.replayed := ["doc2"; "doc1"; "doc2"; "doc1"] |}.
Proof.
  intros s. split; [reflexivity|].
  exact (undo_then_redo defaultScope s [changeA] changeB [tt; tt] _ [tt; tt] _
           wf_edited eq_refl eq_refl eq_refl).
Defined.

(** The first and third documents have been edited; the transaction
    depends on the second one, which answers [false] in this call. *)
Lemma endTransaction_without_change_witness :
  let s := Stateful.edited Stateful.busy in
  let options := {| opt_description := Some "nothing";
                    opt_scope := Some panel;
                    opt_dependencies := Some ["doc2"; "ghost"] |} in
  handleEntries options (priv_handles (mgr s)) = [("doc2", doc2)] /\
  h_endTransaction doc2 options Stateful.busy = (Normal false, Stateful.busy) /\
  exists s',
    endTransaction options s = (Normal None, s') /\
    mgr s' = materialize panel (mgr s) /\
    (forall sd k, stackOf sd (mgr s') k = stackOf sd (mgr s) k) /\
    (forall sd k, elements sd k (mgr s') = elements sd k (mgr s)) /\
    (forall sd k, k <> panel -> store sd (mgr s') !! k = store sd (mgr s) !! k) /\
    world s' = Stateful.busy /\
    trace s' = [] ++ [CallEndTransaction doc2 options].
Proof.
  intros s options. split; [reflexivity|]. split; [reflexivity|].
  apply (endTransaction_without_change options s [false] Stateful.busy).
  - vm_compute. reflexivity.
  - repeat constructor.
Defined.

Lemma scope_isolation_witness :
  let options := {| opt_description := Some "edit";
                    opt_scope := None;
                    opt_dependencies := None |} in
  defaultScope <> panel /\
  (forall sd, store sd (mgr (endTransaction options edited).2) !! panel
              = store sd (mgr edited) !! panel) /\
  (forall sd, store sd (mgr (undo (Some defaultScope) edited).2) !! panel
              = store sd (mgr edited) !! panel) /\
  (forall sd, store sd (mgr (redo (Some defaultScope) edited).2) !! panel
              = store sd (mgr edited) !! panel).
Proof.
  intros options.
  assert (Hne : defaultScope <> panel) by discriminate.
  split; [exact Hne|].
  exact (scope_isolation defaultScope panel options edited Hne eq_refl).
Defined.

Lemma undo_redo_replay_witness :
  let s := Stateful.edited Stateful.clean in
  (exists s',
     undo (Some defaultScope) s =
       (Normal (Some {| r_description := Some "b";
                        r_ids := ["doc2"; "ghost"; "doc1"];
                        r_scope := defaultScope |}), s') /\
     stackOf UndoSide (mgr s') defaultScope = Some [changeA] /\
     stackOf RedoSide (mgr s') defaultScope = Some ([changeA] ++ [changeB]) /\
     trace s' = [] ++ [CallUndo doc2 defaultScope; CallUndo doc1 defaultScope] /\
     world s' = {| Stateful.dirty := []; Stateful.offline := [];
                   Stateful.replayed := ["doc2"; "doc1"] |})
  /\
  (exists s',
     redo (Some defaultScope) s =
       (Normal (Some {| r_description := Some "a";
                        r_ids := ["doc1"];
                        r_scope := defaultScope |}), s') /\
     stackOf RedoSide (mgr s') defaultScope = Some [] /\
     stackOf UndoSide (mgr s') defaultScope = Some ([changeA; changeB] ++ [changeA]) /\
     trace s' = [] ++ [CallRedo doc1 defaultScope] /\
     world s' = {| Stateful.dirty := []; Stateful.offline := [];
                   Stateful.replayed := ["doc1"] |}).
Proof.
  intros s.
  destruct (undo_redo_replay defaultScope s wf_edited) as [Hundo Hredo].
  split.
  - exact (Hundo [changeA] changeB [tt; tt] _ eq_refl eq_refl).
  - exact (Hredo [] changeA [tt] _ eq_refl eq_refl).
Defined.

Lemma target_handles_witness :
  let dependencies := Some ["doc2"; "ghost"; "doc1"] in
  let options := {| opt_description := None;
                    opt_scope := None;
                    opt_dependencies := dependencies |} in
  targetHandleSet dependencies (priv_handles (mgr fresh)) = [doc2; doc1] /\
  (exists w',
     startTransaction dependencies fresh =
       (Normal tt,
        {| mgr := mgr fresh; world := w';
           trace := [] ++ [CallStartTransaction doc2; CallStartTransaction doc1] |})) /\
  trace (endTransaction options fresh).2 =
    [] ++ [CallEndTransaction doc2 options; CallEndTransaction doc1 options].
Proof.
  intros dependencies options. split; [reflexivity|].
  destruct (target_handles dependencies options fresh)
    as (_ & _ & _ & _ & Hstart & Hend).
  split.
  - apply Hstart. repeat constructor; total.
  - apply Hend. repeat constructor; total.
Defined.

(** On a fresh manager, the stacks of the scope "constructor" are empty,
    and [undo] and [redo] of that scope raise. *)
Lemma undo_redo_on_empty_inherited_scope_witness :
  wf (mgr fresh) /\
  inherited (Named "constructor") = Some (ProtoFunction 1) /\
  (forall sd, store sd (mgr fresh) !! Named "constructor" = None /\
              elements sd (Named "constructor") (mgr fresh) = []) /\
  undo (Some (Named "constructor")) fresh
    = (Throw (TypeError "pop is not a function"), fresh) /\
  redo (Some (Named "constructor")) fresh
    = (Throw (TypeError "pop is not a function"), fresh).
Proof.
  refine (conj wf_fresh (conj eq_refl _)).
  exact (undo_redo_on_empty_inherited_scope (Named "constructor") (ProtoFunction 1) fresh
           wf_fresh eq_refl).
Defined.

(** On a fresh manager, [undos] and [redos] of the scope "constructor"
    raise. *)
Lemma undos_redos_inherited_scope_witness :
  wf (mgr fresh) /\
  inherited (Named "constructor") = Some (ProtoFunction 1) /\
  undos (Some (Named "constructor")) fresh
    = (Throw (TypeError "map is not a function"), fresh) /\
  redos (Some (Named "constructor")) fresh
    = (Throw (TypeError "map is not a function"), fresh).
Proof.
  refine (conj wf_fresh (conj eq_refl _)).
  exact (undos_redos_inherited_scope (Named "constructor") (ProtoFunction 1) fresh
           wf_fresh eq_refl).
Defined.

(** The third document is offline: the first one replays, the third one
    raises, the second one is not called. *)
Lemma replay_failure_loses_change_witness :
  let s := Stateful.edited Stateful.broken in
  let e := HandleFailure "offline" in
  let w := {| Stateful.dirty := ["doc1"; "doc2"]; Stateful.offline := ["doc3"];
              Stateful.replayed := ["doc1"] |} in
  registeredAmong (priv_handles (mgr s)) (ids changeF) = [doc1] ++ doc3 :: [doc2] /\
  (exists s',
     undo (Some panel) s = (Throw e, s') /\
     stackOf UndoSide (mgr s') panel = Some [] /\
     stackOf RedoSide (mgr s') panel = stackOf RedoSide (mgr s) panel /\
     trace s' = [] ++ [CallUndo doc1 panel; CallUndo doc3 panel] /\
     world s' = w)
  /\
  (exists s',
     redo (Some panel) s = (Throw e, s') /\
     stackOf RedoSide (mgr s') panel = Some [] /\
     stackOf UndoSide (mgr s') panel = stackOf UndoSide (mgr s) panel /\
     trace s' = [] ++ [CallRedo doc1 panel; CallRedo doc3 panel] /\
     world s' = w).
Proof.
  intros s e w. split; [reflexivity|].
  destruct (replay_failure_loses_change panel s wf_edited) as [Hundo Hredo].
  split.
  - exact (Hundo [] changeF [doc1] doc3 [doc2] [tt] w e w
             eq_refl eq_refl eq_refl eq_refl).
  - exact (Hredo [] changeF [doc1] doc3 [doc2] [tt] w e w
             eq_refl eq_refl eq_refl eq_refl).
Defined.

End Instances.

(** * Further properties of the methods *)

Section Coverage.
Context {DocHandle Handle World : Type}.
Context `{!AutomergeRepoUndoRedo DocHandle Handle World}.
#[local] Abbreviation M := (M Handle World).
Implicit Types (m : Manager Handle) (s : State Handle World).
Implicit Types (scope : ScopeKey) (sd : side) (c : Change).
Implicit Types (hs : list (DocumentId * Handle)).

(** ** The registry *)

Lemma get_set_eq id (h : Handle) hs : JsMap.get id (JsMap.set id h hs) = Some h.
Proof.
  induction hs as [|[k v] hs IH]; simpl.
  - by rewrite decide_True.
  - destruct (decide (k = id)) as [->|Hne]; simpl.
    + by rewrite decide_True.
    + by rewrite decide_False.
Qed.

Lemma get_set_ne id id' (h : Handle) hs :
  id' <> id -> JsMap.get id' (JsMap.set id h hs) = JsMap.get id' hs.
Proof.
  intros Hne. induction hs as [|[k v] hs IH]; simpl.
  - by rewrite decide_False.
  - destruct (decide (k = id)) as [->|Hk]; simpl.
    + by rewrite !decide_False.
    + by rewrite IH.
Qed.

Lemma get_None_keys id hs : JsMap.get id hs = None <-> id ∉ map fst hs.
Proof.
  induction hs as [|[k v] hs IH]; simpl.
  - split; [intros _; apply not_elem_of_nil|done].
  - rewrite not_elem_of_cons. destruct (decide (k = id)) as [->|Hk].
    + split; [done|by intros [? _]].
    + rewrite IH. split; [intros ?; split; [congruence|done]|by intros [_ ?]].
Qed.

Lemma set_keys_present id (h : Handle) hs :
  is_Some (JsMap.get id hs) -> map fst (JsMap.set id h hs) = map fst hs.
Proof.
  induction hs as [|[k v] hs IH]; simpl; [by intros [? ?]|].
  destruct (decide (k = id)) as [->|Hk]; simpl; [done|].
  intros Hsome. by rewrite IH.
Qed.

Lemma set_absent id (h : Handle) hs :
  JsMap.get id hs = None -> JsMap.set id h hs = hs ++ [(id, h)].
Proof.
  induction hs as [|[k v] hs IH]; simpl; [done|].
  destruct (decide (k = id)) as [->|Hk]; [done|].
  intros Hnone. by rewrite IH.
Qed.

Lemma addHandle_wrapped (h : Handle) s :
  addHandle (inr h) s =
    (Normal h, with_mgr (set_handles (JsMap.set (documentId h) h)) s).
Proof. reflexivity. Qed.

Lemma addHandle_raw (d : DocHandle) s :
  addHandle (inl d) s =
    match newAutomergeRepoUndoRedo d (world s) with
    | (Normal h, w) =>
        (Normal h,
         {| mgr := set_handles (JsMap.set (documentId h) h) (mgr s);
            world := w; trace := trace s |})
    | (Throw e, w) => (Throw e, {| mgr := mgr s; world := w; trace := trace s |})
    end.
Proof.
  unfold addHandle, bind at 1, construct.
  by destruct (newAutomergeRepoUndoRedo d (world s)) as [[h|e] w].
Qed.

(** X1: after [addHandle(h)] for a wrapped handle, [getUndoRedoHandle]
    returns [h] for the document of [h], and answers for every other
    document as it did before; [addHandle] returns [h]. *)
Theorem addHandle_getUndoRedoHandle (h : Handle) s :
  let s' := (addHandle (inr h) s).2 in
  (addHandle (inr h) s).1 = Normal h /\
  (getUndoRedoHandle (documentId h) s').1 = Normal (Some h) /\
  (forall id, id <> documentId h ->
     (getUndoRedoHandle id s').1 = (getUndoRedoHandle id s).1).
Proof.
  rewrite addHandle_wrapped. cbv zeta. unfold getUndoRedoHandle, gets. simpl.
  split; [done|]. split.
  - by rewrite get_set_eq.
  - intros id Hne. by rewrite get_set_ne.
Qed.

(** X2: the registry keeps one entry per document, in the order of first
    registration: registering a handle for a document that has one replaces
    the handle and leaves the order of the documents as it was; for a new
    document the entry is appended. *)
Theorem addHandle_registry_order (h : Handle) s :
  let hs := priv_handles (mgr s) in
  let hs' := priv_handles (mgr (addHandle (inr h) s).2) in
  (NoDup (map fst hs) -> NoDup (map fst hs')) /\
  (is_Some (JsMap.get (documentId h) hs) -> map fst hs' = map fst hs) /\
  (JsMap.get (documentId h) hs = None -> hs' = hs ++ [(documentId h, h)]).
Proof.
  rewrite addHandle_wrapped. cbv zeta. simpl.
  assert (Hpresent := set_keys_present (documentId h) h (priv_handles (mgr s))).
  assert (Habsent := set_absent (documentId h) h (priv_handles (mgr s))).
  split; [|by split].
  intros Hnodup. destruct (JsMap.get (documentId h) (priv_handles (mgr s))) eqn:Hget.
  - rewrite Hpresent by eauto. done.
  - rewrite Habsent by done. rewrite map_app. simpl.
    apply NoDup_app. split; [done|]. split.
    + intros x Hx ->%list_elem_of_singleton.
      by apply get_None_keys in Hget.
    + apply NoDup_singleton.
Qed.

(** X3: [addHandle] leaves both stores and the sequence of calls as they
    were, for a wrapped handle and for a raw document alike; when the
    constructor that wraps a raw document raises, the registry is unchanged
    too. *)
Theorem addHandle_no_history handle s :
  let s' := (addHandle handle s).2 in
  priv_undoStack (mgr s') = priv_undoStack (mgr s) /\
  priv_redoStack (mgr s') = priv_redoStack (mgr s) /\
  trace s' = trace s /\
  match (addHandle handle s).1 with
  | Normal h => mgr s' = set_handles (JsMap.set (documentId h) h) (mgr s)
  | Throw _ => mgr s' = mgr s
  end.
Proof.
  cbv zeta. destruct handle as [d|h].
  - rewrite addHandle_raw.
    destruct (newAutomergeRepoUndoRedo d (world s)) as [[h|e] w]; simpl; done.
  - rewrite addHandle_wrapped. simpl. done.
Qed.

(** X4: no method but [addHandle] changes the registry: it is the same
    after [startTransaction], [endTransaction], [undo], [redo] and the
    queries, whatever their completion. *)
Theorem registry_preserved s :
  (forall dependencies,
     priv_handles (mgr (startTransaction dependencies s).2) = priv_handles (mgr s)) /\
  (forall options,
     priv_handles (mgr (endTransaction options s).2) = priv_handles (mgr s)) /\
  (forall arg, priv_handles (mgr (undo arg s).2) = priv_handles (mgr s)) /\
  (forall arg, priv_handles (mgr (redo arg s).2) = priv_handles (mgr s)) /\
  (forall q arg, priv_handles (mgr (ask q arg s).2) = priv_handles (mgr s)).
Proof.
  repeat split.
  - intros dependencies. unfold startTransaction, bind at 1, gets at 1.
    rewrite forEach_mgr; [done|]. intros h s'. apply invoke_mgr.
  - intros options. apply endTransaction_shape.
  - intros arg. rewrite undo_move, move_default. apply move_shape.
  - intros arg. rewrite redo_move, move_default. apply move_shape.
  - intros q arg. rewrite ask_state. apply handles_materialize.
Qed.

(** ** [getStacks] *)

Lemma materialize_idem scope m : materialize scope (materialize scope m) = materialize scope m.
Proof.
  set (m1 := materialize scope m).
  assert (Ht : forall sd, truthy (getProp sd m1 scope) = true).
  { intros sd. subst m1. rewrite getProp_materialize.
    by destruct (resolve_cases sd m scope) as [->|[v ->]]. }
  unfold materialize at 1, materialize1. rewrite (Ht UndoSide). by rewrite (Ht RedoSide).
Qed.

(** X5: [getStacks(scope)] never raises; it creates an empty array for the
    scope in each store that has none (when the scope names no member of
    [Object.prototype]), leaves the elements of every stack and every other
    key of the stores as they were, and a second call returns the same
    references and changes nothing. *)
Theorem getStacks_lazy scope s :
  exists refs s',
    getStacks scope s = (Normal refs, s') /\
    (inherited scope = None ->
     undoStack refs = ArrayAt UndoSide scope /\ redoStack refs = ArrayAt RedoSide scope /\
     forall sd, store sd (mgr s') !! scope = Some (elements sd scope (mgr s))) /\
    (forall sd k, elements sd k (mgr s') = elements sd k (mgr s)) /\
    (forall sd k, k <> scope -> store sd (mgr s') !! k = store sd (mgr s) !! k) /\
    world s' = world s /\ trace s' = trace s /\
    getStacks scope s' = (Normal refs, s').
Proof.
  eexists _, _. split; [apply getStacks_run|]. simpl.
  split; [|split; [|split; [|split; [|split]]]]; try done.
  - intros Hin. rewrite !wf_resolve by done. split; [done|]. split; [done|].
    intros sd. rewrite store_materialize. unfold getProp, elements.
    destruct (store sd (mgr s) !! scope) eqn:Hown; [done|].
    rewrite Hin. by rewrite lookup_insert_eq.
  - intros sd k. apply elements_materialize.
  - intros sd k. apply lookup_materialize_ne.
  - rewrite getStacks_run. simpl. rewrite !resolve_materialize.
    f_equal. unfold with_mgr. simpl. by rewrite materialize_idem.
Qed.

(** ** [endTransaction] and [startTransaction] *)

Lemma filterBoolean_sublist (entries : list (DocumentId * Handle)) nullable :
  Forall2 (fun e n => n = None \/ n = Some e.1) entries nullable ->
  filterBoolean nullable `sublist_of` map fst entries.
Proof.
  induction 1 as [|e n entries nullable [->| ->] _ IH]; simpl.
  - constructor.
  - by apply sublist_cons.
  - by apply sublist_skip.
Qed.

Lemma collect_any options entries s nullable s' :
  mapM entries (reportChange options) s = (Normal nullable, s') ->
  Forall2 (fun e n => n = None \/ n = Some e.1) entries nullable.
Proof.
  revert s nullable. induction entries as [|[id h] l IH]; intros s nullable.
  - simpl. unfold ret. intros [= <- _]. constructor.
  - rewrite mapM_cons. unfold reportChange at 1, bind at 1.
    destruct (invoke _ _ s) as [[b|e] s1]; [|done]. unfold ret at 1.
    destruct (mapM l (reportChange options) s1) as [[ns|e] s2] eqn:Hrest; [|done].
    intros [= <- <-]. constructor; [destruct b; auto|]. by eapply IH.
Qed.

Lemma filterEntries_sublist (hs : list (DocumentId * Handle)) deps :
  map fst (filterEntries (map (fun id => (id, JsMap.get id hs)) deps)) `sublist_of` deps.
Proof.
  induction deps as [|id deps IH]; simpl; [constructor|].
  destruct (JsMap.get id hs); simpl; [by apply sublist_skip|by apply sublist_cons].
Qed.

(** X6: whenever [endTransaction] returns a record, the record carries the
    resolved scope and [options.description]; its ids are not empty and are
    a sublist of the identifiers of the target entries, in their order (so
    of the dependencies list when one is given); the Change of this
    description and these ids is the new top of the scope's undo stack, on
    the elements the stack had, and the scope's redo stack is empty. *)
Theorem endTransaction_returned options s r s' :
  let scope := default defaultScope (opt_scope options) in
  let entries := handleEntries options (priv_handles (mgr s)) in
  endTransaction options s = (Normal (Some r), s') ->
  r_scope r = scope /\
  r_description r = opt_description options /\
  r_ids r <> [] /\
  r_ids r `sublist_of` map fst entries /\
  (forall deps, opt_dependencies options = Some deps -> r_ids r `sublist_of` deps) /\
  store UndoSide (mgr s') !! scope =
    Some (elements UndoSide scope (mgr s) ++
          [{| description := opt_description options; ids := r_ids r |}]) /\
  store RedoSide (mgr s') !! scope = Some [].
Proof.
  intros scope entries. unfold endTransaction. fold scope.
  unfold bind at 1. rewrite getStacks_run.
  unfold bind at 1, gets at 1. simpl mgr. rewrite handles_materialize. fold entries.
  unfold bind at 1.
  destruct (mapM entries (reportChange options) _) as [[nullable|e] s2] eqn:Hrun; [|done].
  pose proof (collect_any _ _ _ _ _ Hrun) as Hany.
  pose proof (mapM_mgr entries (reportChange options)) as Hmgr.
  specialize (Hmgr (fun e s0 => ltac:(
    destruct e as [id h]; unfold reportChange, bind;
    pose proof (invoke_mgr (CallEndTransaction h options)
                  (h_endTransaction h options) s0) as Hi;
    destruct (invoke _ _ s0) as [[[]|?] ?]; exact Hi))
    (with_mgr (materialize scope) s)).
  rewrite Hrun in Hmgr. simpl in Hmgr.
  destruct (length (filterBoolean nullable) =? 0)%nat eqn:Hlen; [done|].
  simpl undoStack.
  destruct (resolve_cases UndoSide (mgr s) scope) as [Hu|[v Hu]]; rewrite Hu; [|done].
  unfold bind at 1. rewrite push_array. unfold bind, modify, ret, with_mgr.
  cbn [mgr world trace]. intros [= <- <-]. cbn [r_scope r_description r_ids mgr].
  rewrite Hmgr, elements_materialize.
  pose proof (filterBoolean_sublist _ _ Hany) as Hsub.
  split; [done|]. split; [done|]. split.
  { intros Hnil. rewrite Hnil in Hlen. done. }
  split; [done|]. split.
  { intros deps Hdeps. etrans; [exact Hsub|]. subst entries. unfold handleEntries.
    rewrite Hdeps. apply filterEntries_sublist. }
  split; simpl; apply lookup_insert_eq.
Qed.

(** X7: when, in a call of [endTransaction], the [endTransaction] of a
    target handle raises, the manager's [endTransaction] raises the same
    exception: the handles before it have been asked, those after it are
    not, the collaborators are left as the raising call leaves them,
    nothing is pushed and the redo stack is not cleared; the stack of
    every scope has the elements it had. *)
Theorem endTransaction_handle_raises options s pre id (h : Handle) post bs w1 e w2 :
  let scope := default defaultScope (opt_scope options) in
  handleEntries options (priv_handles (mgr s)) = pre ++ (id, h) :: post ->
  runCalls (map (fun e' => h_endTransaction e'.2 options) pre) (world s)
    = (Normal bs, w1) ->
  h_endTransaction h options w1 = (Throw e, w2) ->
  exists s',
    endTransaction options s = (Throw e, s') /\
    mgr s' = materialize scope (mgr s) /\
    trace s' = trace s ++
      map (fun h' => CallEndTransaction h' options) (map snd pre ++ [h]) /\
    world s' = w2 /\
    (forall sd k, stackOf sd (mgr s') k = stackOf sd (mgr s) k) /\
    (forall sd k, elements sd k (mgr s') = elements sd k (mgr s)).
Proof.
  intros scope Hentries Hpre Hraise.
  unfold endTransaction. fold scope. unfold bind at 1. rewrite getStacks_run.
  unfold bind at 1, gets at 1. simpl mgr. rewrite handles_materialize, Hentries.
  unfold bind at 1.
  rewrite (collect_raise options pre id h post (with_mgr (materialize scope) s)
             bs w1 e w2 Hpre Hraise).
  eexists. split; [done|]. simpl.
  split; [done|]. split; [done|]. split; [done|].
  split; intros sd k; [apply stackOf_materialize|apply elements_materialize].
Qed.

(** X8: [startTransaction] never changes the manager (it does not even
    create the stacks of a scope), whatever its completion; when, in a
    call, the [startTransaction] of a target handle raises, the exception
    is raised to the caller, the handles before it have been started,
    those after it have not, and the collaborators are left as the raising
    call leaves them. *)
Theorem startTransaction_partial dependencies s :
  mgr (startTransaction dependencies s).2 = mgr s /\
  (forall pre (h : Handle) post us w1 e w2,
     targetHandles dependencies (priv_handles (mgr s)) = pre ++ h :: post ->
     runCalls (map h_startTransaction pre) (world s) = (Normal us, w1) ->
     h_startTransaction h w1 = (Throw e, w2) ->
     startTransaction dependencies s =
       (Throw e,
        {| mgr := mgr s; world := w2;
           trace := trace s ++ map CallStartTransaction (pre ++ [h]) |})).
Proof.
  split.
  - unfold startTransaction, bind at 1, gets at 1.
    rewrite forEach_mgr; [done|]. intros h s'. apply invoke_mgr.
  - intros pre h post us w1 e w2 Htargets Hpre Hraise.
    unfold startTransaction, bind at 1, gets at 1. rewrite Htargets.
    by apply (forEach_invoke_raise CallStartTransaction h_startTransaction) with us w1.
Qed.

Lemma targets_unregistered hs deps :
  Forall (fun id => JsMap.get id hs = None) deps ->
  filterBoolean (map (fun id => JsMap.get id hs) deps) = [] /\
  filterEntries (map (fun id => (id, JsMap.get id hs)) deps) = [].
Proof.
  induction 1 as [|id l Hid _ [IH1 IH2]]; [done|]. simpl. by rewrite Hid.
Qed.

(** X9: a dependencies list none of whose identifiers is registered is no
    error: [startTransaction] completes and changes nothing, and
    [endTransaction] returns [undefined], having called no handle and
    pushed nothing. *)
Theorem unregistered_dependencies deps options s :
  let scope := default defaultScope (opt_scope options) in
  Forall (fun id => JsMap.get id (priv_handles (mgr s)) = None) deps ->
  opt_dependencies options = Some deps ->
  startTransaction (Some deps) s = (Normal tt, s) /\
  endTransaction options s = (Normal None, with_mgr (materialize scope) s).
Proof.
  intros scope Hnone Hdeps.
  pose proof (targets_unregistered _ _ Hnone) as [Htargets Hentries].
  split.
  - unfold startTransaction, bind at 1, gets at 1. cbv beta zeta.
    unfold targetHandles. by rewrite Htargets.
  - unfold endTransaction. fold scope. unfold bind at 1. rewrite getStacks_run.
    unfold bind at 1, gets at 1. simpl mgr. rewrite handles_materialize.
    unfold handleEntries. by rewrite Hdeps, Hentries.
Qed.

(** ** [canUndo] and [canRedo] *)

Lemma canUndo_run arg s :
  canUndo arg s =
    (match resolve UndoSide (mgr s) (default defaultScope arg) with
     | ArrayAt _ _ =>
         Normal (greaterThanZero
                   (Some (length (elements UndoSide (default defaultScope arg) (mgr s)))))
     | Inherited (ProtoFunction n) => Normal (greaterThanZero (Some n))
     | Inherited ProtoObject => Normal (greaterThanZero None)
     | Undefined => Throw (TypeError "Cannot read properties of undefined, reading length")
     end,
     with_mgr (materialize (default defaultScope arg)) s).
Proof.
  unfold canUndo. unfold bind at 1. rewrite getStacks_run. simpl undoStack.
  destruct (resolve_cases UndoSide (mgr s) (default defaultScope arg)) as [Hr|[[] Hr]];
    rewrite Hr; [|done..].
  unfold arrayLength, bind, gets, ret. simpl mgr. by rewrite elements_materialize.
Qed.

Lemma canRedo_run arg s :
  canRedo arg s =
    (match resolve RedoSide (mgr s) (default defaultScope arg) with
     | ArrayAt _ _ =>
         Normal (greaterThanZero
                   (Some (length (elements RedoSide (default defaultScope arg) (mgr s)))))
     | Inherited (ProtoFunction n) => Normal (greaterThanZero (Some n))
     | Inherited ProtoObject => Normal (greaterThanZero None)
     | Undefined => Throw (TypeError "Cannot read properties of undefined, reading length")
     end,
     with_mgr (materialize (default defaultScope arg)) s).
Proof.
  unfold canRedo. unfold bind at 1. rewrite getStacks_run. simpl redoStack.
  destruct (resolve_cases RedoSide (mgr s) (default defaultScope arg)) as [Hr|[[] Hr]];
    rewrite Hr; [|done..].
  unfold arrayLength, bind, gets, ret. simpl mgr. by rewrite elements_materialize.
Qed.

Lemma greaterThanZero_length {A} (l : list A) :
  greaterThanZero (Some (length l)) = bool_decide (l <> []).
Proof. destruct l; done. Qed.

(** X10: for a scope whose stack is an array, [canUndo] answers whether
    the undo stack has an element and [canRedo] whether the redo stack has
    one; for a scope that a store has no key for and that names no member
    of [Object.prototype], the answer is [false].  (A scope that names a
    member of [Object.prototype] and has no key is answered from that
    member instead.) *)
Theorem canUndo_canRedo_nonempty S s :
  (forall l, stackOf UndoSide (mgr s) S = Some l ->
     (canUndo (Some S) s).1 = Normal (bool_decide (l <> []))) /\
  (forall l, stackOf RedoSide (mgr s) S = Some l ->
     (canRedo (Some S) s).1 = Normal (bool_decide (l <> []))) /\
  (inherited S = None -> store UndoSide (mgr s) !! S = None ->
     (canUndo (Some S) s).1 = Normal false) /\
  (inherited S = None -> store RedoSide (mgr s) !! S = None ->
     (canRedo (Some S) s).1 = Normal false).
Proof.
  split; [|split; [|split]].
  - intros l [Hres Hel]%stackOf_Some.
    rewrite canUndo_run. simpl default. by rewrite Hres, Hel, greaterThanZero_length.
  - intros l [Hres Hel]%stackOf_Some.
    rewrite canRedo_run. simpl default. by rewrite Hres, Hel, greaterThanZero_length.
  - intros Hin Hnone. rewrite canUndo_run. simpl default.
    rewrite wf_resolve by done. unfold elements. by rewrite Hnone.
  - intros Hin Hnone. rewrite canRedo_run. simpl default.
    rewrite wf_resolve by done. unfold elements. by rewrite Hnone.
Qed.

(** X11: at a string scope that names a member of [Object.prototype],
    [undo] and [redo] raise a [TypeError] and change nothing, while
    [canUndo] and [canRedo] raise nothing and answer from the member
    itself: [true] exactly when it is a function with at least one
    declared parameter. *)
Theorem inherited_scope_undo_redo S v s :
  wf (mgr s) ->
  inherited S = Some v ->
  let flag := match v with
              | ProtoFunction n => bool_decide (0 < n)
              | ProtoObject => false
              end in
  undo (Some S) s = (Throw (TypeError "pop is not a function"), s) /\
  redo (Some S) s = (Throw (TypeError "pop is not a function"), s) /\
  canUndo (Some S) s = (Normal flag, s) /\
  canRedo (Some S) s = (Normal flag, s).
Proof.
  intros Hwf Hin flag.
  destruct (wf_inherited (mgr s) S v UndoSide Hwf Hin) as (_ & Hu & Hmat).
  destruct (wf_inherited (mgr s) S v RedoSide Hwf Hin) as (_ & Hr & _).
  assert (Hs : with_mgr (materialize S) s = s) by by apply with_mgr_fixed.
  repeat split.
  - unfold undo. simpl default. unfold bind at 1. rewrite getStacks_run, Hs.
    simpl undoStack. by rewrite Hu.
  - unfold redo. simpl default. unfold bind at 1. rewrite getStacks_run, Hs.
    simpl redoStack. by rewrite Hr.
  - rewrite canUndo_run. simpl default. rewrite Hu, Hs. by destruct v.
  - rewrite canRedo_run. simpl default. rewrite Hr, Hs. by destruct v.
Qed.

(** What [endTransaction] has done when it returns a record. *)
Lemma endTransaction_record options s r s' :
  let scope := default defaultScope (opt_scope options) in
  endTransaction options s = (Normal (Some r), s') ->
  r_scope r = scope /\
  r_description r = opt_description options /\
  r_ids r <> [] /\
  (forall deps, opt_dependencies options = Some deps -> r_ids r `sublist_of` deps) /\
  store UndoSide (mgr s') !! scope =
    Some (elements UndoSide scope (mgr s) ++
          [{| description := opt_description options; ids := r_ids r |}]) /\
  store RedoSide (mgr s') !! scope = Some [].
Proof.
  intros scope. unfold endTransaction. fold scope.
  unfold bind at 1. rewrite getStacks_run.
  unfold bind at 1, gets at 1. simpl mgr. rewrite handles_materialize.
  set (entries := handleEntries options (priv_handles (mgr s))).
  unfold bind at 1.
  destruct (mapM entries (reportChange options) _) as [[nullable|e] s2] eqn:Hrun; [|done].
  pose proof (collect_any _ _ _ _ _ Hrun) as Hany.
  pose proof (mapM_mgr entries (reportChange options)) as Hmgr.
  specialize (Hmgr (fun e s0 => ltac:(
    destruct e as [id h]; unfold reportChange, bind;
    pose proof (invoke_mgr (CallEndTransaction h options)
                  (h_endTransaction h options) s0) as Hi;
    destruct (invoke _ _ s0) as [[[]|?] ?]; exact Hi))
    (with_mgr (materialize scope) s)).
  rewrite Hrun in Hmgr. simpl in Hmgr.
  destruct (length (filterBoolean nullable) =? 0)%nat eqn:Hlen; [done|].
  simpl undoStack.
  destruct (resolve_cases UndoSide (mgr s) scope) as [Hu|[v Hu]]; rewrite Hu; [|done].
  unfold bind at 1. rewrite push_array. unfold bind, modify, ret, with_mgr.
  cbn [mgr world trace]. intros [= <- <-]. cbn [r_scope r_description r_ids mgr].
  rewrite Hmgr, elements_materialize.
  pose proof (filterBoolean_sublist _ _ Hany) as Hsub.
  split; [done|]. split; [done|]. split.
  { intros Hnil. rewrite Hnil in Hlen. done. }
  split.
  { intros deps Hdeps. etrans; [exact Hsub|]. subst entries. unfold handleEntries.
    rewrite Hdeps. apply filterEntries_sublist. }
  split; simpl; apply lookup_insert_eq.
Qed.

(** X12: a new edit invalidates the redo history: after an
    [endTransaction] that records a Change under a scope, whatever the
    scope's redo stack held, [redo] of that scope returns [undefined] and
    calls no handle, [canRedo] answers [false] and [canUndo] answers
    [true]. *)
Theorem new_edit_invalidates_redo options s r s' :
  let scope := default defaultScope (opt_scope options) in
  endTransaction options s = (Normal (Some r), s') ->
  (exists s2, redo (Some scope) s' = (Normal None, s2) /\
              trace s2 = trace s' /\ world s2 = world s') /\
  (canRedo (Some scope) s').1 = Normal false /\
  (canUndo (Some scope) s').1 = Normal true.
Proof.
  intros scope Hrun.
  destruct (endTransaction_record options s r s' Hrun) as (_ & _ & _ & _ & Hu & Hr).
  fold scope in Hu, Hr.
  pose proof (stackOf_lookup RedoSide _ _ _ Hr) as Hredo.
  pose proof (stackOf_lookup UndoSide _ _ _ Hu) as Hundo.
  apply stackOf_Some in Hundo as [Hures Huel].
  pose proof Hredo as [Hrres Hrel]%stackOf_Some.
  split; [|split].
  - rewrite redo_move, (move_empty RedoSide) by done. by eexists.
  - rewrite canRedo_run. simpl default. by rewrite Hrres, Hrel.
  - rewrite canUndo_run. simpl default. rewrite Hures, Huel, greaterThanZero_length.
    rewrite bool_decide_eq_true_2; [done|].
    by destruct (elements UndoSide scope (mgr s)).
Qed.

(** ** Sequences of [undo] and [redo] *)

(** X13: on a non-empty redo stack with top Change C, [redo(S)] followed
    by [undo(S)] leaves the stack of every scope, on both sides, with the
    elements it had before the redo, and both calls return the description
    and ids of C with the scope S.  The handle calls of the two runs (the
    [redo]s of the Change's registered handles, then their [undo]s from
    the state the [redo]s leave) are assumed to complete. *)
Theorem redo_then_undo S s l C rs w1 us w2 :
  let hs := priv_handles (mgr s) in
  wf (mgr s) ->
  stackOf RedoSide (mgr s) S = Some (l ++ [C]) ->
  runCalls (map (fun h => h_redo h S) (registeredAmong hs (ids C))) (world s)
    = (Normal rs, w1) ->
  runCalls (map (fun h => h_undo h S) (registeredAmong hs (ids C))) w1
    = (Normal us, w2) ->
  exists s1 s2,
    let returned :=
      {| r_description := description C; r_ids := ids C; r_scope := S |} in
    redo (Some S) s = (Normal (Some returned), s1) /\
    undo (Some S) s1 = (Normal (Some returned), s2) /\
    (forall sd k, stackOf sd (mgr s2) k = stackOf sd (mgr s) k) /\
    world s1 = w1 /\ world s2 = w2.
Proof.
  intros hs Hwf Hst Hredo Hundo. rewrite redo_move.
  destruct (move_there_and_back_run RedoSide CallRedo CallUndo h_redo h_undo
              S s l C rs w1 us w2 Hwf Hst Hredo Hundo)
    as (s1 & s2 & H1 & H2 & H3 & H4 & H5 & _).
  exists s1, s2. rewrite undo_move. by repeat split.
Qed.

Lemma times_S {A} (n : nat) (c : M A) s :
  times (S n) c s =
    match c s with
    | (Normal _, s') => times n c s'
    | (Throw e, s') => (Throw e, s')
    end.
Proof. reflexivity. Qed.

(** The top [length l] Changes of a stack, moved one by one; the handle
    calls are those of the Changes, the most recent Change first. *)
Lemma move_many_run from (call : Handle -> ScopeKey -> Call Handle)
  (op : Handle -> ScopeKey -> World -> completion unit * World) S l :
  forall s base us w',
  wf (mgr s) ->
  inherited S = None ->
  stackOf from (mgr s) S = Some (base ++ l) ->
  runCalls (map (fun h => op h S)
              (flat_map (fun C => registeredAmong (priv_handles (mgr s)) (ids C)) (rev l)))
           (world s) = (Normal us, w') ->
  exists s',
    times (length l) (move from call op (Some S)) s = (Normal tt, s') /\
    wf (mgr s') /\
    priv_handles (mgr s') = priv_handles (mgr s) /\
    stackOf from (mgr s') S = Some base /\
    stackOf (opposite from) (mgr s') S =
      Some (elements (opposite from) S (mgr s) ++ rev l) /\
    (forall sd k, k <> S -> store sd (mgr s') !! k = store sd (mgr s) !! k) /\
    trace s' = trace s ++
      map (fun h => call h S)
          (flat_map (fun C => registeredAmong (priv_handles (mgr s)) (ids C)) (rev l)) /\
    world s' = w'.
Proof.
  induction l as [|C l IH] using rev_ind; intros s base us w' Hwf Hin Hst Hrun.
  - simpl in Hrun. injection Hrun as _ <-.
    exists s. simpl. rewrite !app_nil_r in *. repeat split; try done.
    by apply stackOf_elements.
  - rewrite length_app, Nat.add_comm. simpl length. simpl Nat.add. rewrite times_S.
    rewrite rev_unit in Hrun |- *. simpl flat_map in Hrun |- *.
    rewrite map_app, runCalls_app in Hrun.
    destruct (runCalls (map (fun h => op h S)
                (registeredAmong (priv_handles (mgr s)) (ids C))) (world s))
      as [[u1|e1] w1] eqn:Hfirst; [|done].
    destruct (runCalls _ w1) as [[u2|e2] w2] eqn:Hrest; [|done].
    injection Hrun as _ <-.
    rewrite app_assoc in Hst.
    destruct (move_run from call op S s (base ++ l) C u1 w1 Hwf Hst Hfirst)
      as (s1 & Hrun1 & Hhs1 & Hf1 & Ht1 & Hothers1 & Htrace1 & Hw1).
    rewrite Hrun1.
    assert (Hwf1 : wf (mgr s1)).
    { pose proof (wf_move from call op (Some S) s Hwf) as H1. by rewrite Hrun1 in H1. }
    destruct (IH s1 base u2 w2 Hwf1 Hin)
      as (s' & Hrun & Hwf' & Hhs' & Hf' & Ht' & Hothers' & Htrace' & Hw').
    { by apply stackOf_lookup. }
    { by rewrite Hhs1, Hw1. }
    exists s'. split; [done|]. split; [done|]. split; [congruence|].
    split; [done|]. split; [|split; [|split; [|done]]].
    + rewrite Ht', (elements_lookup _ _ _ _ Ht1). by rewrite <- app_assoc.
    + intros sd k Hk. by rewrite Hothers', Hothers1.
    + rewrite Htrace', Htrace1, Hhs1, map_app. by rewrite <- app_assoc.
Qed.

(** X14: undo is last in, first out: [n] calls of [undo(S)] on a stack
    that ends with the Changes [l], [n] their number, return normally and
    leave the rest of the undo stack; the redo stack has gained the
    Changes of [l] in reverse order, and the registered handles of the
    Changes have been called, the most recent Change first.  These calls,
    made one after the other from the current state of the collaborators,
    are assumed to complete, and the collaborators end in the state they
    leave. *)
Theorem undo_many S s base l us w' :
  let hs := priv_handles (mgr s) in
  let handles := flat_map (fun C => registeredAmong hs (ids C)) (rev l) in
  wf (mgr s) ->
  inherited S = None ->
  stackOf UndoSide (mgr s) S = Some (base ++ l) ->
  runCalls (map (fun h => h_undo h S) handles) (world s) = (Normal us, w') ->
  exists s',
    times (length l) (undo (Some S)) s = (Normal tt, s') /\
    stackOf UndoSide (mgr s') S = Some base /\
    stackOf RedoSide (mgr s') S = Some (elements RedoSide S (mgr s) ++ rev l) /\
    trace s' = trace s ++ map (fun h => CallUndo h S) handles /\
    world s' = w'.
Proof.
  intros hs handles Hwf Hin Hst Hrun.
  destruct (move_many_run UndoSide CallUndo h_undo S l s base us w' Hwf Hin Hst Hrun)
    as (s' & Htimes & _ & _ & Hu & Hr & _ & Htrace & Hw).
  exists s'. by repeat split.
Qed.

(** X15: undoing the [n] most recent Changes of a scope and then redoing
    [n] times restores the history: the stack of every scope, on both
    sides, has the elements it had.  The handle calls of the two runs (the
    [undo]s for the Changes, the most recent first, then the [redo]s for
    the Changes in their order, from the state the [undo]s leave) are
    assumed to complete. *)
Theorem undo_many_redo_many S s base l us w1 rs w2 :
  let hs := priv_handles (mgr s) in
  wf (mgr s) ->
  inherited S = None ->
  stackOf UndoSide (mgr s) S = Some (base ++ l) ->
  runCalls (map (fun h => h_undo h S)
              (flat_map (fun C => registeredAmong hs (ids C)) (rev l)))
           (world s) = (Normal us, w1) ->
  runCalls (map (fun h => h_redo h S)
              (flat_map (fun C => registeredAmong hs (ids C)) l))
           w1 = (Normal rs, w2) ->
  exists s1 s2,
    times (length l) (undo (Some S)) s = (Normal tt, s1) /\
    times (length l) (redo (Some S)) s1 = (Normal tt, s2) /\
    (forall sd k, stackOf sd (mgr s2) k = stackOf sd (mgr s) k) /\
    world s1 = w1 /\ world s2 = w2.
Proof.
  intros hs Hwf Hin Hst Hundo Hredo.
  destruct (move_many_run UndoSide CallUndo h_undo S l s base us w1 Hwf Hin Hst Hundo)
    as (s1 & Hrun1 & Hwf1 & Hhs1 & Hu1 & Hr1 & Hothers1 & _ & Hw1).
  simpl opposite in Hr1.
  destruct (move_many_run RedoSide CallRedo h_redo S (rev l) s1
              (elements RedoSide S (mgr s)) rs w2 Hwf1 Hin Hr1)
    as (s2 & Hrun2 & _ & _ & Hr2 & Hu2 & Hothers2 & _ & Hw2).
  { by rewrite rev_involutive, Hhs1, Hw1. }
  rewrite length_rev in Hrun2. exists s1, s2. split; [done|]. split; [done|].
  split; [|done].
  simpl opposite in Hu2. rewrite rev_involutive in Hu2.
  apply stackOf_Some in Hu1 as [_ Hu1]. rewrite Hu1 in Hu2.
  intros sd k. destruct (decide (k = S)) as [->|Hne].
  - destruct sd; [by rewrite Hu2|].
    rewrite Hr2. symmetry. by apply stackOf_elements.
  - apply stackOf_ext. by rewrite Hothers2, Hothers1.
Qed.

(** ** [transaction] *)


(** ** Exceptions *)

Lemma forEach_invoke_origin (c : Handle -> Call Handle)
  (o : Handle -> World -> completion unit * World) l s e s' :
  forEach l (fun h => invoke (c h) (o h)) s = (Throw e, s') ->
  raisesIn o l (world s) e (world s').
Proof.
  revert s. induction l as [|h l IH]; intros s; [done|].
  rewrite forEach_cons. unfold invoke at 1.
  destruct (o h (world s)) as [[[]|e'] w1] eqn:Hop.
  - intros (pre & h0 & post & us & w0 & -> & Hpre & Hraise)%IH. simpl in Hpre.
    exists (h :: pre), h0, post, (tt :: us), w0. split; [done|]. split; [|done].
    simpl. by rewrite Hop, Hpre.
  - intros [= <- <-]. by exists [], h, l, [], (world s).
Qed.

Lemma collect_origin options entries s e s' :
  mapM entries (reportChange options) s = (Throw e, s') ->
  raisesIn (fun h => h_endTransaction h options) (map snd entries) (world s) e (world s').
Proof.
  revert s. induction entries as [|[id h] l IH]; intros s; [done|].
  rewrite mapM_cons. unfold reportChange at 1, bind at 1, invoke at 1.
  destruct (h_endTransaction h options (world s)) as [[b|e'] w1] eqn:Hop.
  - unfold ret at 1.
    destruct (mapM l (reportChange options) _) as [[ns|e'] s2] eqn:Hrest; [done|].
    intros [= <- <-].
    apply IH in Hrest as (pre & h0 & post & us & w0 & Hl & Hpre & Hraise).
    simpl in Hpre.
    exists (h :: pre), h0, post, (b :: us), w0. split; [by simpl; rewrite Hl|].
    split; [|done]. simpl. by rewrite Hop, Hpre.
  - intros [= <- <-]. by exists [], h, (map snd l), [], (world s).
Qed.

Lemma move_origin from (call : Handle -> ScopeKey -> Call Handle)
  (op : Handle -> ScopeKey -> World -> completion unit * World) S s e s' :
  inherited S = None ->
  move from call op (Some S) s = (Throw e, s') ->
  exists C,
    last (elements from S (mgr s)) = Some C /\
    raisesIn (fun h => op h S) (registeredAmong (priv_handles (mgr s)) (ids C))
             (world s) e (world s').
Proof.
  intros Hin. unfold move. simpl default. unfold bind at 1. rewrite getStacks_run.
  rewrite !refOf_resolved by done.
  unfold bind at 1. rewrite pop_array. simpl mgr. rewrite elements_materialize.
  destruct (last (elements from S (mgr s))) as [C|]; [|done].
  unfold bind at 1.
  destruct (replay call op S C _) as [[[]|e'] s3] eqn:Hreplay.
  - unfold bind at 1. by rewrite push_array.
  - intros [= <- <-]. exists C. split; [done|].
    rewrite replay_forEach in Hreplay.
    apply (forEach_invoke_origin (fun h => call h S) (fun h => op h S)) in Hreplay.
    simpl in Hreplay. by rewrite handles_setProp, handles_materialize in Hreplay.
Qed.

(** X17: the manager raises nothing of its own at a scope that names no
    member of [Object.prototype]: an exception of [undo], [redo],
    [endTransaction] (with this scope given or, for the default scope,
    omitted) or [startTransaction] is the exception that a call on a
    target handle raised in this run, after the calls on the handles
    before it completed; and the queries raise nothing. *)
Theorem no_manager_exception S s e :
  let hs := priv_handles (mgr s) in
  inherited S = None ->
  (forall s', undo (Some S) s = (Throw e, s') ->
     exists C, last (elements UndoSide S (mgr s)) = Some C /\
       raisesIn (fun h => h_undo h S) (registeredAmong hs (ids C))
                (world s) e (world s')) /\
  (forall s', redo (Some S) s = (Throw e, s') ->
     exists C, last (elements RedoSide S (mgr s)) = Some C /\
       raisesIn (fun h => h_redo h S) (registeredAmong hs (ids C))
                (world s) e (world s')) /\
  (forall options s',
     default defaultScope (opt_scope options) = S ->
     endTransaction options s = (Throw e, s') ->
     raisesIn (fun h => h_endTransaction h options)
              (targetHandleSet (opt_dependencies options) hs) (world s) e (world s')) /\
  (forall dependencies s',
     startTransaction dependencies s = (Throw e, s') ->
     raisesIn h_startTransaction (targetHandleSet dependencies hs)
              (world s) e (world s')) /\
  (forall q, exists a, (ask q (Some S) s).1 = Normal a).
Proof.
  intros hs Hin. split; [|split; [|split; [|split]]].
  - intros s'. rewrite undo_move. by apply move_origin.
  - intros s'. rewrite redo_move. by apply move_origin.
  - intros options s' Hscope. unfold endTransaction. rewrite Hscope.
    unfold bind at 1. rewrite getStacks_run.
    unfold bind at 1, gets at 1. simpl mgr. rewrite handles_materialize.
    unfold bind at 1.
    destruct (mapM _ (reportChange options) _) as [[nullable|e'] s2] eqn:Hrun.
    + destruct (length (filterBoolean nullable) =? 0)%nat; [done|].
      simpl undoStack. rewrite wf_resolve by done.
      unfold bind at 1. by rewrite push_array.
    + intros [= <- <-]. apply collect_origin in Hrun.
      by rewrite handleEntries_spec in Hrun.
  - intros dependencies s'. unfold startTransaction, bind at 1, gets at 1.
    intros Hrun.
    apply (forEach_invoke_origin CallStartTransaction h_startTransaction) in Hrun.
    by rewrite targetHandles_spec in Hrun.
  - intros q. rewrite ask_run. simpl default. unfold answerFrom.
    destruct q; simpl sideOf; rewrite wf_resolve by done; by eexists.
Qed.

End Coverage.

(** * The further properties on the sample collaborators *)

Section CoverageInstances.
Import Sample.

#[local] Ltac total := intros ?; repeat eexists; reflexivity.

Lemma wf_sample_fresh : wf (mgr fresh).
Proof. apply wfb_wf. vm_compute. reflexivity. Defined.

Lemma wf_sample_edited : wf (mgr edited).
Proof. apply wfb_wf. vm_compute. reflexivity. Defined.

Lemma addHandle_getUndoRedoHandle_witness :
  let s' := (addHandle (inr edit2) fresh).2 in
  "doc1" <> documentId edit2 /\
  (getUndoRedoHandle "doc2" s').1 = Normal (Some edit2) /\
  (getUndoRedoHandle "doc1" s').1 = (getUndoRedoHandle "doc1" fresh).1.
Proof.
  intros s'.
  assert (Hne : "doc1" <> documentId edit2) by discriminate.
  destruct (addHandle_getUndoRedoHandle edit2 fresh) as (_ & Hget & Hother).
  exact (conj Hne (conj Hget (Hother "doc1" Hne))).
Defined.

Lemma addHandle_registry_order_witness :
  NoDup (map fst (priv_handles (mgr fresh))) /\
  is_Some (JsMap.get (documentId edit2) (priv_handles (mgr fresh))) /\
  JsMap.get (documentId (mkHandle "doc9" true false)) (priv_handles (mgr fresh)) = None /\
  NoDup (map fst (priv_handles (mgr (addHandle (inr edit2) fresh).2))) /\
  map fst (priv_handles (mgr (addHandle (inr edit2) fresh).2)) = ["doc1"; "doc2"; "doc3"] /\
  priv_handles (mgr (addHandle (inr (mkHandle "doc9" true false)) fresh).2)
    = registry ++ [("doc9", mkHandle "doc9" true false)].
Proof.
  assert (Hnodup : NoDup (map fst (priv_handles (mgr fresh)))).
  { simpl. repeat (apply NoDup_cons; split;
      [rewrite ?not_elem_of_cons; repeat split; (discriminate || apply not_elem_of_nil)|]).
    apply NoDup_nil_2. }
  assert (Hsome : is_Some (JsMap.get (documentId edit2) (priv_handles (mgr fresh))))
    by (eexists; reflexivity).
  destruct (addHandle_registry_order edit2 fresh) as (Hn & Hkeys & _).
  destruct (addHandle_registry_order (mkHandle "doc9" true false) fresh)
    as (_ & _ & Happend).
  exact (conj Hnodup (conj Hsome (conj eq_refl
           (conj (Hn Hnodup) (conj (Hkeys Hsome) (Happend eq_refl)))))).
Defined.

Lemma getStacks_lazy_witness :
  inherited panel = None /\
  Named "other" <> panel /\
  exists refs s',
    getStacks panel fresh = (Normal refs, s') /\
    undoStack refs = ArrayAt UndoSide panel /\
    store UndoSide (mgr s') !! panel = Some [] /\
    store UndoSide (mgr s') !! Named "other" = store UndoSide (mgr fresh) !! Named "other" /\
    getStacks panel s' = (Normal refs, s').
Proof.
  assert (Hne : Named "other" <> panel) by discriminate.
  refine (conj eq_refl (conj Hne _)).
  destruct (getStacks_lazy panel fresh)
    as (refs & s' & Hrun & Hcreate & _ & Hothers & _ & _ & Hagain).
  destruct (Hcreate eq_refl) as (Hu & _ & Hstore).
  exists refs, s'. split; [exact Hrun|]. split; [exact Hu|].
  split; [exact (Hstore UndoSide)|]. split; [exact (Hothers UndoSide _ Hne)|exact Hagain].
Defined.

Lemma endTransaction_returned_witness :
  let options := {| opt_description := Some "c";
                    opt_scope := None;
                    opt_dependencies := Some ["doc3"; "ghost"; "doc2"; "doc1"] |} in
  let r := {| r_description := Some "c"; r_ids := ["doc3"; "doc1"];
              r_scope := defaultScope |} in
  let s' := (endTransaction options edited).2 in
  endTransaction options edited = (Normal (Some r), s') /\
  r_ids r `sublist_of` ["doc3"; "ghost"; "doc2"; "doc1"] /\
  store RedoSide (mgr s') !! defaultScope = Some [].
Proof.
  intros options r s'.
  assert (Hrun : endTransaction options edited = (Normal (Some r), s')).
  { subst s'. rewrite (surjective_pairing (endTransaction options edited)) at 1.
    f_equal. }
  split; [exact Hrun|].
  destruct (endTransaction_returned options edited r s' Hrun)
    as (_ & _ & _ & _ & Hdeps & _ & Hredo).
  exact (conj (Hdeps _ eq_refl) Hredo).
Defined.

(** The third document is offline: the first one is asked, the third one
    raises, the second one is not asked. *)
Lemma endTransaction_handle_raises_witness :
  let s := Stateful.edited Stateful.broken in
  let options := {| opt_description := Some "c";
                    opt_scope := Some panel;
                    opt_dependencies := Some ["doc1"; "doc3"; "doc2"] |} in
  let w := {| Stateful.dirty := ["doc2"]; Stateful.offline := ["doc3"];
              Stateful.replayed := [] |} in
  handleEntries options (priv_handles (mgr s))
    = [("doc1", doc1)] ++ ("doc3", doc3) :: [("doc2", doc2)] /\
  exists s',
    endTransaction options s = (Throw (HandleFailure "offline"), s') /\
    mgr s' = materialize panel (mgr s) /\
    trace s' = [] ++ [CallEndTransaction doc1 options; CallEndTransaction doc3 options] /\
    world s' = w /\
    (forall sd k, stackOf sd (mgr s') k = stackOf sd (mgr s) k) /\
    (forall sd k, elements sd k (mgr s') = elements sd k (mgr s)).
Proof.
  intros s options w. split; [reflexivity|].
  apply (endTransaction_handle_raises options s
           [("doc1", doc1)] "doc3" doc3 [("doc2", doc2)] [true] w
           (HandleFailure "offline") w).
  - reflexivity.
  - vm_compute. reflexivity.
  - vm_compute. reflexivity.
Defined.

Lemma startTransaction_partial_witness :
  let s := Stateful.edited Stateful.broken in
  let dependencies := Some ["doc1"; "doc3"; "doc2"] in
  targetHandles dependencies (priv_handles (mgr s)) = [doc1] ++ doc3 :: [doc2] /\
  startTransaction dependencies s =
    (Throw (HandleFailure "offline"),
     {| mgr := mgr s; world := Stateful.broken;
        trace := [] ++ [CallStartTransaction doc1; CallStartTransaction doc3] |}).
Proof.
  intros s dependencies. split; [reflexivity|].
  destruct (startTransaction_partial dependencies s) as [_ Hraise].
  apply (Hraise [doc1] doc3 [doc2] [tt] Stateful.broken
           (HandleFailure "offline") Stateful.broken).
  - reflexivity.
  - vm_compute. reflexivity.
  - vm_compute. reflexivity.
Defined.

Lemma unregistered_dependencies_witness :
  let deps := ["ghost"; "nobody"] in
  let options := {| opt_description := Some "c";
                    opt_scope := None;
                    opt_dependencies := Some deps |} in
  Forall (fun id => JsMap.get id (priv_handles (mgr edited)) = None) deps /\
  startTransaction (Some deps) edited = (Normal tt, edited) /\
  endTransaction options edited = (Normal None, with_mgr (materialize defaultScope) edited).
Proof.
  intros deps options.
  assert (Hnone : Forall (fun id => JsMap.get id (priv_handles (mgr edited)) = None) deps)
    by (repeat constructor).
  exact (conj Hnone (unregistered_dependencies deps options edited Hnone eq_refl)).
Defined.

Lemma canUndo_canRedo_nonempty_witness :
  stackOf UndoSide (mgr edited) defaultScope = Some [changeA; changeB] /\
  inherited (Named "other") = None /\
  store RedoSide (mgr edited) !! Named "other" = None /\
  (canUndo (Some defaultScope) edited).1 = Normal (bool_decide ([changeA; changeB] <> [])) /\
  (canRedo (Some (Named "other")) edited).1 = Normal false.
Proof.
  destruct (canUndo_canRedo_nonempty defaultScope edited) as (Hundo & _).
  destruct (canUndo_canRedo_nonempty (Named "other") edited) as (_ & _ & _ & Hredo).
  exact (conj eq_refl (conj eq_refl (conj eq_refl
           (conj (Hundo _ eq_refl) (Hredo eq_refl eq_refl))))).
Defined.

Lemma inherited_scope_undo_redo_witness :
  wf (mgr fresh) /\
  inherited (Named "constructor") = Some (ProtoFunction 1) /\
  undo (Some (Named "constructor")) fresh = (Throw (TypeError "pop is not a function"), fresh) /\
  redo (Some (Named "constructor")) fresh = (Throw (TypeError "pop is not a function"), fresh) /\
  canUndo (Some (Named "constructor")) fresh = (Normal true, fresh) /\
  canRedo (Some (Named "constructor")) fresh = (Normal true, fresh).
Proof.
  refine (conj wf_sample_fresh (conj eq_refl _)).
  exact (inherited_scope_undo_redo (Named "constructor") (ProtoFunction 1) fresh
           wf_sample_fresh eq_refl).
Defined.

(** The first and third documents have been edited: the edit is recorded
    and the redo history of the default scope is gone. *)
Lemma new_edit_invalidates_redo_witness :
  let s := Stateful.edited Stateful.busy in
  let options := describedAs "c" in
  let r := {| r_description := Some "c"; r_ids := ["doc1"; "doc3"];
              r_scope := defaultScope |} in
  let s' := (endTransaction options s).2 in
  stackOf RedoSide (mgr s) defaultScope = Some [changeA] /\
  endTransaction options s = (Normal (Some r), s') /\
  (exists s2, redo (Some defaultScope) s' = (Normal None, s2) /\
              trace s2 = trace s' /\ world s2 = world s') /\
  (canRedo (Some defaultScope) s').1 = Normal false /\
  (canUndo (Some defaultScope) s').1 = Normal true.
Proof.
  intros s options r s'. split; [reflexivity|].
  assert (Hrun : endTransaction options s = (Normal (Some r), s')).
  { subst s'. rewrite (surjective_pairing (endTransaction options s)) at 1.
    f_equal. }
  split; [exact Hrun|].
  exact (new_edit_invalidates_redo options s r s' Hrun).
Defined.

Lemma redo_then_undo_witness :
  let s := Stateful.edited Stateful.clean in
  stackOf RedoSide (mgr s) defaultScope = Some ([] ++ [changeA]) /\
  exists s1 s2,
    let returned := {| r_description := Some "a";
                       r_ids := ["doc1"];
                       r_scope := defaultScope |} in
    redo (Some defaultScope) s = (Normal (Some returned), s1) /\
    undo (Some defaultScope) s1 = (Normal (Some returned), s2) /\
    (forall sd k, stackOf sd (mgr s2) k = stackOf sd (mgr s) k) /\
    world s1 = {| Stateful.dirty := []; Stateful.offline := [];
                  Stateful.replayed := ["doc1"] |} /\
    world s2 = {| Stateful.dirty := []; Stateful.offline := [];
                  Stateful.replayed := ["doc1"; "doc1"] |}.
Proof.
  intros s. split; [reflexivity|].
  exact (redo_then_undo defaultScope s [] changeA [tt] _ [tt] _
           wf_sample_edited eq_refl eq_refl eq_refl).
Defined.

(** Two undos: the handles of the second Change, then the one of the
    first. *)
Lemma undo_many_witness :
  let s := Stateful.edited Stateful.clean in
  stackOf UndoSide (mgr s) defaultScope = Some ([] ++ [changeA; changeB]) /\
  exists s',
    times 2 (undo (Some defaultScope)) s = (Normal tt, s') /\
    stackOf UndoSide (mgr s') defaultScope = Some [] /\
    stackOf RedoSide (mgr s') defaultScope = Some ([changeA] ++ rev [changeA; changeB]) /\
    trace s' = [] ++ [CallUndo doc2 defaultScope; CallUndo doc1 defaultScope;
                      CallUndo doc1 defaultScope] /\
    world s' = {| Stateful.dirty := []; Stateful.offline := [];
                  Stateful.replayed := ["doc2"; "doc1"; "doc1"] |}.
Proof.
  intros s. split; [reflexivity|].
  exact (undo_many defaultScope s [] [changeA; changeB] [tt; tt; tt] _
           wf_sample_edited eq_refl eq_refl eq_refl).
Defined.

(** Two undos and two redos. *)
Lemma undo_many_redo_many_witness :
  let s := Stateful.edited Stateful.clean in
  stackOf UndoSide (mgr s) defaultScope = Some ([] ++ [changeA; changeB]) /\
  exists s1 s2,
    times 2 (undo (Some defaultScope)) s = (Normal tt, s1) /\
    times 2 (redo (Some defaultScope)) s1 = (Normal tt, s2) /\
    (forall sd k, stackOf sd (mgr s2) k = stackOf sd (mgr s) k) /\
    world s1 = {| Stateful.dirty := []; Stateful.offline := [];
                  Stateful.replayed := ["doc2"; "doc1"; "doc1"] |} /\
    world s2 = {| Stateful.dirty := []; Stateful.offline := [];
                  Stateful.replayed := ["doc2"; "doc1"; "doc1"; "doc1"; "doc2"; "doc1"] |}.
Proof.
  intros s. split; [reflexivity|].
  exact (undo_many_redo_many defaultScope s [] [changeA; changeB]
           [tt; tt; tt] _ [tt; tt; tt] _
           wf_sample_edited eq_refl eq_refl eq_refl eq_refl).
Defined.


(** The third document is offline: the exceptions of [undo] in the scope
    "panel" and of [endTransaction] without a scope are the one its
    handle raises. *)
Lemma no_manager_exception_witness :
  let s := Stateful.edited Stateful.broken in
  let e := HandleFailure "offline" in
  let options := describedAs "c" in
  let s1 := (undo (Some panel) s).2 in
  let s2 := (endTransaction options s).2 in
  inherited panel = None /\ inherited defaultScope = None /\
  undo (Some panel) s = (Throw e, s1) /\
  endTransaction options s = (Throw e, s2) /\
  (exists C, last (elements UndoSide panel (mgr s)) = Some C /\
     raisesIn (fun h => h_undo h panel)
              (registeredAmong (priv_handles (mgr s)) (ids C)) (world s) e (world s1)) /\
  raisesIn (fun h => h_endTransaction h options)
           (targetHandleSet None (priv_handles (mgr s))) (world s) e (world s2).
Proof.
  intros s e options s1 s2.
  assert (Hundo : undo (Some panel) s = (Throw e, s1)).
  { subst s1. rewrite (surjective_pairing (undo (Some panel) s)) at 1. f_equal. }
  assert (Hend : endTransaction options s = (Throw e, s2)).
  { subst s2. rewrite (surjective_pairing (endTransaction options s)) at 1. f_equal. }
  refine (conj eq_refl (conj eq_refl (conj Hundo (conj Hend _)))).
  destruct (no_manager_exception panel s e eq_refl) as (Hu & _).
  destruct (no_manager_exception defaultScope s e eq_refl) as (_ & _ & He & _).
  exact (conj (Hu s1 Hundo) (He options s2 eq_refl Hend)).
Defined.

End CoverageInstances.
